(** * CasADi [SparsityInterface]: the shared matrix algebra layer

    Shallow embedding of [casadi/core/matrix/sparsity_interface.hpp].

    The header gives every matrix-like type [MatType] (MX, Matrix<>, Sparsity)
    the same free functions [horzcat], [vertcat], [horzsplit], [vertsplit],
    [blkdiag], [mul] and [transpose].  Each of them delegates to a member of
    [MatType] ([zz_horzcat], [zz_mtimes], [T], ...).  The embedding has two
    parts:

    - the generic layer, written once over a type class holding the members
      the header calls (section [Algebra]);
    - a sparse integer matrix implementing that class (module [Sparse]), used
      for the laws that depend on what the members compute.

    C++ [int] is [Z]; [std::vector] is [list]; a thrown exception is the left
    summand of the result; the calls made on [MatType] are recorded in a trace
    so that "raised before the member is called" can be stated. *)

From stdpp Require Import base list gmap fin_maps.
From Stdlib Require Import ZArith Lia.

Open Scope Z_scope.

(** ** Errors, traces and the computation monad *)

(** The conditions an operation can raise.  [casadi_assert] failing inside
    the header is [InvalidArgument]; incompatible dimensions detected by a
    member are [ShapeMismatch]; [ContractViolation] is a member rejecting an
    offset vector that does not describe a partition. *)
Inductive error : Set :=
  | InvalidArgument
  | ShapeMismatch
  | ContractViolation.

(** One constructor per member of [MatType] the header can call. *)
Inductive member : Set :=
  | M_size1
  | M_size2
  | M_horzcat
  | M_vertcat
  | M_horzsplit
  | M_vertsplit
  | M_blkdiag
  | M_mtimes
  | M_mtimes3
  | M_T.

Definition trace : Set := list member.

Definition result (A : Type) : Type := error + A.

(** A computation threads the trace of member calls and either throws or
    returns. *)
Definition Op (A : Type) : Type := trace -> trace * result A.

Definition op_ret {A} (a : A) : Op A := fun t => (t, inr a).

Definition op_bind {A B} (k : A -> Op B) (m : Op A) : Op B :=
  fun t =>
    match m t with
    | (t', inl e) => (t', inl e)
    | (t', inr a) => k a t'
    end.

Definition throw {A} (e : error) : Op A := fun t => (t, inl e).

(** Calling member [p], whose outcome is [r]. *)
Definition call {A} (p : member) (r : result A) : Op A :=
  fun t => (t ++ [p], r).

#[global] Instance Op_ret : MRet Op := @op_ret.
#[global] Instance Op_bind : MBind Op := @op_bind.

(** [casadi_assert(cond)] and [casadi_assert_message(cond, msg)]. *)
Definition casadi_assert (cond : bool) : Op unit :=
  if cond then mret tt else throw InvalidArgument.

(** ** [range] from std_vector_tools.hpp *)

(** Modelled from the spec: [range(start, stop, step)], declared in
    std_vector_tools.hpp and defined outside this header.  The spec
    describes the derived sequence as [[0, incr, 2*incr, ...]] capped at the
    dimension size: the values [start + k*step] that are below [stop]. *)
Definition range (start stop step : Z) : list Z :=
  let nret := Z.to_nat ((stop - start + step - 1) / step) in
  (fun k : nat => start + Z.of_nat k * step) <$> seq 0 nret.

(** The offset sequence [[0, 1, ..., n]]. *)
Definition unit_offsets (n : Z) : list Z :=
  Z.of_nat <$> seq 0 (S (Z.to_nat n)).

(** The number of values [range(0, n, incr)] produces: [n / incr] rounded
    up. *)
Definition ngroups (n incr : Z) : nat := Z.to_nat ((n + incr - 1) / incr).

(** ** The members of [MatType] used by the header *)

Class SparsityInterface (MatType : Type) : Type := {
  (** [MatType()], used by [std::vector<MatType> v(2)] *)
  mat_default : MatType;
  size1 : MatType -> Z;
  size2 : MatType -> Z;
  zz_horzcat : list MatType -> result MatType;
  zz_vertcat : list MatType -> result MatType;
  zz_horzsplit : MatType -> list Z -> result (list MatType);
  zz_vertsplit : MatType -> list Z -> result (list MatType);
  zz_blkdiag : list MatType -> result MatType;
  zz_mtimes : MatType -> MatType -> result MatType;
  zz_mtimes3 : MatType -> MatType -> MatType -> result MatType;
  T : MatType -> MatType
}.

(** ** The free functions of [SparsityInterface<MatType>] *)

Section Algebra.
Context {MatType : Type} `{SparsityInterface MatType}.

(** [std::vector<MatType> v(2); v[0] = x; v[1] = y;] *)
Definition vector2 (x y : MatType) : list MatType :=
  let v := replicate 2 mat_default in
  let v := <[0%nat := x]> v in
  let v := <[1%nat := y]> v in
  v.

(** [MatType horzcat(const std::vector<MatType> &v)] *)
Definition horzcat (v : list MatType) : Op MatType :=
  call M_horzcat (zz_horzcat v).

(** [MatType horzcat(const MatType &x, const MatType &y)] *)
Definition horzcat2 (x y : MatType) : Op MatType :=
  horzcat (vector2 x y).

(** [MatType vertcat(const std::vector<MatType> &v)] *)
Definition vertcat (v : list MatType) : Op MatType :=
  call M_vertcat (zz_vertcat v).

(** [MatType vertcat(const MatType &x, const MatType &y)] *)
Definition vertcat2 (x y : MatType) : Op MatType :=
  vertcat (vector2 x y).

(** [std::vector<MatType> horzsplit(const MatType &v,
    const std::vector<int>& offset)] *)
Definition horzsplit (v : MatType) (offset : list Z) : Op (list MatType) :=
  call M_horzsplit (zz_horzsplit v offset).

(** [std::vector<MatType> horzsplit(const MatType &v, int incr=1)] with
    [incr] given: the assertion, then the size, then the offsets
    [range(0, sz2, incr)] with [sz2] pushed at the back. *)
Definition horzsplit_incr (v : MatType) (incr : Z) : Op (list MatType) :=
  casadi_assert (1 <=? incr) ≫= fun _ =>
  sz2 ← call M_size2 (inr (size2 v));
  let offset2 := range 0 sz2 incr in
  let offset2 := offset2 ++ [sz2] in
  horzsplit v offset2.

(** [horzsplit(v)]: the declaration gives [incr] the default value 1. *)
Definition horzsplit_default (v : MatType) : Op (list MatType) :=
  horzsplit_incr v 1.

(** [std::vector<MatType> vertsplit(const MatType &v,
    const std::vector<int>& offset)] *)
Definition vertsplit (v : MatType) (offset : list Z) : Op (list MatType) :=
  call M_vertsplit (zz_vertsplit v offset).

(** [std::vector<MatType> vertsplit(const MatType &v, int incr=1)] with
    [incr] given. *)
Definition vertsplit_incr (v : MatType) (incr : Z) : Op (list MatType) :=
  casadi_assert (1 <=? incr) ≫= fun _ =>
  sz1 ← call M_size1 (inr (size1 v));
  let offset1 := range 0 sz1 incr in
  let offset1 := offset1 ++ [sz1] in
  vertsplit v offset1.

(** [vertsplit(v)]: the declaration gives [incr] the default value 1. *)
Definition vertsplit_default (v : MatType) : Op (list MatType) :=
  vertsplit_incr v 1.

(** [MatType blkdiag(const std::vector<MatType> &A)] *)
Definition blkdiag (A : list MatType) : Op MatType :=
  call M_blkdiag (zz_blkdiag A).

(** [MatType blkdiag(const MatType &x, const MatType &y)] *)
Definition blkdiag2 (x y : MatType) : Op MatType :=
  blkdiag (vector2 x y).

(** [MatType mul(const MatType &X, const MatType &Y)] *)
Definition mul (X Y : MatType) : Op MatType :=
  call M_mtimes (zz_mtimes X Y).

(** [MatType mul(const MatType &X, const MatType &Y, const MatType &Z)] *)
Definition mul3 (X Y Z : MatType) : Op MatType :=
  call M_mtimes3 (zz_mtimes3 X Y Z).

(** The loop [for (int i=1; i<args.size(); ++i) ret = mul(ret, args[i]);]
    at index [i], with [n] bounding the iterations left.  The loop stops
    when [i] reaches the size of [args]; started at [i = 1] with
    [n = length args - 1] it visits every element after the first. *)
Fixpoint mul_loop (args : list MatType) (n : nat) (i : nat) (ret : MatType)
  : Op MatType :=
  match n with
  | O => mret ret
  | S n' =>
      match args !! i with
      | Some e => ret' ← mul ret e; mul_loop args n' (S i) ret'
      | None => mret ret
      end
  end.

(** [MatType mul(const std::vector<MatType> &args)]: the assertion
    [args.size()>=1], then [ret = args[0]], then the loop.  After the
    assertion [args[0]] exists, so the last branch is never taken. *)
Definition mul_list (args : list MatType) : Op MatType :=
  casadi_assert (1 <=? Z.of_nat (length args)) ≫= fun _ =>
  match args !! 0%nat with
  | Some ret => mul_loop args (length args - 1) 1 ret
  | None => throw InvalidArgument
  end.

(** [MatType transpose(const MatType& X)] *)
Definition transpose (X : MatType) : Op MatType :=
  call M_T (inr (T X)).

(** The fold the specification describes for the n-ary product:
    start from the first element and combine each further element [e] as
    [result = mul(result, e)]. *)
Definition mul_fold_spec (first : MatType) (rest : list MatType) : Op MatType :=
  foldl (fun acc e => r ← acc; mul r e) (mret first) rest.

End Algebra.

(** ** A sparse integer matrix implementing the members

    The members of the concrete matrix types (Sparsity, Matrix<>, MX) are
    defined outside this header.  The definitions of this module are
    modelled from the specification's data model and component design; the
    element type is [Z], that is, exact arithmetic. *)

Module Sparse.

(** Modelled from the spec: the matrix-like value of the data model, which
    the header only names as [MatType]: a row count, a column count
    and the structurally nonzero positions with their values.  A position
    absent from [nz] is a structural zero. *)
Record Matrix : Type := mkMatrix {
  rows : Z;
  cols : Z;
  nz : gmap (Z * Z) Z
}.

(** The data-model invariant: non-negative shape, and every stored
    position lies inside it. *)
Definition wf (M : Matrix) : Prop :=
  0 <= rows M /\ 0 <= cols M /\
  map_Forall (fun k _ => (0 <= k.1 < rows M) /\ (0 <= k.2 < cols M)) (nz M).

(** The sparsity pattern: the set of stored positions. *)
Definition sparsity (M : Matrix) : gset (Z * Z) := dom (nz M).

(** The value at a position, a structural zero reading as 0. *)
Definition entry (M : Matrix) (i j : Z) : Z := default 0 (nz M !! (i, j)).

(** The direction an operation works along: [Horz] for columns
    ([horzcat], [horzsplit]) and [Vert] for rows. *)
Inductive axis : Set := Horz | Vert.

Definition along (ax : axis) (k : Z * Z) : Z :=
  match ax with Horz => k.2 | Vert => k.1 end.

Definition shift (ax : axis) (d : Z) (k : Z * Z) : Z * Z :=
  match ax with Horz => (k.1, k.2 + d) | Vert => (k.1 + d, k.2) end.

Definition dim_along (ax : axis) (M : Matrix) : Z :=
  match ax with Horz => cols M | Vert => rows M end.

Definition dim_across (ax : axis) (M : Matrix) : Z :=
  match ax with Horz => rows M | Vert => cols M end.

Definition mk (ax : axis) (across along : Z) (m : gmap (Z * Z) Z) : Matrix :=
  match ax with
  | Horz => mkMatrix across along m
  | Vert => mkMatrix along across m
  end.

#[global] Instance shift_inj ax d : Inj (=) (=) (shift ax d).
Proof.
  intros [i j] [i' j']; destruct ax; simpl; intros [= ? ?];
    f_equal; lia.
Qed.

(** *** Concatenation *)

(** The entries of the concatenation: each input moved to the offset at
    which its block starts. *)
Fixpoint cat_nz (ax : axis) (off : Z) (l : list Matrix) : gmap (Z * Z) Z :=
  match l with
  | [] => ∅
  | x :: l' => kmap (shift ax off) (nz x) ∪ cat_nz ax (off + dim_along ax x) l'
  end.

Definition sum_along (ax : axis) (l : list Matrix) : Z :=
  foldr (fun x s => dim_along ax x + s) 0 l.

(** Modelled from the spec: the members [zz_horzcat] and [zz_vertcat].
    All inputs must agree on the complementary dimension, otherwise
    [ShapeMismatch]; the result's size along the axis is the sum of the
    inputs' sizes and each position comes from the input that contains it,
    in input order.  The spec leaves the empty list to the representation;
    this one returns the 0-by-0 matrix. *)
Definition cat (ax : axis) (l : list Matrix) : result Matrix :=
  match l with
  | [] => inr (mkMatrix 0 0 ∅)
  | x :: _ =>
      if forallb (fun y => dim_across ax y =? dim_across ax x) l
      then inr (mk ax (dim_across ax x) (sum_along ax l) (cat_nz ax 0 l))
      else inl ShapeMismatch
  end.

(** The steps a concatenation member takes: reading the shape of the
    [n]-th input, and copying the data of the [n]-th input into the
    result. *)
Inductive step : Set :=
  | ReadShape (n : nat)
  | CopyData (n : nat).

(** Reading the shapes of the inputs in order, from the [n]-th on, against
    the size [a] across the axis; the reading stops at the first input that
    differs. *)
Fixpoint check_shapes (ax : axis) (a : Z) (n : nat) (l : list Matrix)
  : list step * bool :=
  match l with
  | [] => ([], true)
  | y :: l' =>
      if dim_across ax y =? a
      then let r := check_shapes ax a (S n) l' in (ReadShape n :: r.1, r.2)
      else ([ReadShape n], false)
  end.

(** Copying the inputs in order, from the [n]-th on, to the offset at
    which each block starts. *)
Fixpoint copy_blocks (ax : axis) (off : Z) (n : nat) (l : list Matrix)
  : list step * gmap (Z * Z) Z :=
  match l with
  | [] => ([], ∅)
  | x :: l' =>
      let r := copy_blocks ax (off + dim_along ax x) (S n) l' in
      (CopyData n :: r.1, kmap (shift ax off) (nz x) ∪ r.2)
  end.

(** Modelled from the spec: the members [zz_horzcat] and [zz_vertcat] step
    by step.  The spec's error design has the shape check raised
    immediately upon reading the mismatching shapes, before any data
    copying occurs: the shapes are read first, in input order, and only a
    list that passes is copied.  The second component is [cat]. *)
Definition cat_run (ax : axis) (l : list Matrix) : list step * result Matrix :=
  match l with
  | [] => ([], inr (mkMatrix 0 0 ∅))
  | x :: _ =>
      let chk := check_shapes ax (dim_across ax x) 0 l in
      if chk.2
      then let cp := copy_blocks ax 0 0 l in
           (chk.1 ++ cp.1,
            inr (mk ax (dim_across ax x) (sum_along ax l) cp.2))
      else (chk.1, inl ShapeMismatch)
  end.

(** *** Splitting *)

(** The group [[lo, hi)] of [v] along the axis, renumbered from 0. *)
Definition slice (ax : axis) (v : Matrix) (lo hi : Z) : Matrix :=
  mk ax (dim_across ax v) (hi - lo)
     (kmap (shift ax (- lo))
           (filter (fun kv => lo <= along ax kv.1 < hi) (nz v))).

(** The groups described by the offsets [[o0, ..., ok]]: [[o_i, o_(i+1))]
    for each pair of neighbours, the last group running to the end [N]
    of the dimension. *)
Fixpoint bounds (N : Z) (offset : list Z) : list (Z * Z) :=
  match offset with
  | o :: (o' :: rest) as tl =>
      match rest with
      | [] => [(o, N)]
      | _ :: _ => (o, o') :: bounds N tl
      end
  | _ => []
  end.

(** Boundaries from [lo] on are non-decreasing and at most [N]. *)
Fixpoint monotone (lo N : Z) (offset : list Z) : bool :=
  match offset with
  | [] => true
  | o :: rest => (lo <=? o) && (o <=? N) && monotone o N rest
  end.

(** An offset sequence for a dimension of size [N]: it starts at 0, is
    non-decreasing and stays within [0..N]. *)
Definition valid_offsets (N : Z) (offset : list Z) : bool :=
  match offset with
  | [] => false
  | o0 :: rest => (o0 =? 0) && (0 <=? N) && monotone 0 N rest
  end.

(** The groups of [v] for the offsets, in order. *)
Definition slices (ax : axis) (v : Matrix) (N : Z) (offset : list Z)
  : list Matrix :=
  (fun b => slice ax v b.1 b.2) <$> bounds N offset.

(** An offset sequence that partitions [0..N) into at least one group. *)
Definition partitions (N : Z) (offset : list Z) : bool :=
  valid_offsets N offset && (2 <=? length offset)%nat.

(** Modelled from the spec: the members [zz_horzsplit] and [zz_vertsplit].
    For offsets [[o0, ..., ok]] they produce [k] matrices, the i-th
    holding the range [[o_i, o_(i+1))], the last one running to the end
    of the dimension.  Decreasing or out-of-range boundaries are a
    contract violation. *)
Definition split (ax : axis) (v : Matrix) (offset : list Z)
  : result (list Matrix) :=
  if valid_offsets (dim_along ax v) offset
  then inr (slices ax v (dim_along ax v) offset)
  else inl ContractViolation.

(** *** Block-diagonal construction *)

Fixpoint blk_nz (r c : Z) (l : list Matrix) : gmap (Z * Z) Z :=
  match l with
  | [] => ∅
  | x :: l' =>
      kmap (shift Vert r) (kmap (shift Horz c) (nz x))
      ∪ blk_nz (r + rows x) (c + cols x) l'
  end.

(** Modelled from the spec: the member [zz_blkdiag].  No constraint
    between the inputs; rows and columns add up, each input sits on the
    diagonal and everything else is structurally zero. *)
Definition blkdiag_raw (l : list Matrix) : result Matrix :=
  inr (mkMatrix (sum_along Vert l) (sum_along Horz l) (blk_nz 0 0 l)).

(** *** Products *)

(** The indices [[0, ..., n-1]] of a dimension of size [n]. *)
Definition indices (n : Z) : list Z := seqZ 0 n.

(** The inner product of row [i] of [X] and column [j] of [Y] over the
    terms whose two factors are both stored; [None] when there is no such
    term. *)
Definition dot (X Y : Matrix) (i j : Z) : option Z :=
  foldr (fun k acc =>
           match nz X !! (i, k), nz Y !! (k, j) with
           | Some a, Some b => Some (a * b + default 0 acc)
           | _, _ => acc
           end)
        None (indices (cols X)).

(** The entry [(i, j)] of the standard matrix product: the sum over [k] of
    [X[i,k] * Y[k,j]], a structural zero counting as 0. *)
Definition inner (X Y : Matrix) (i j : Z) : Z :=
  foldr (fun k s => entry X i k * entry Y k j + s) 0 (indices (cols X)).

(** The entries of the product: every position of the result shape that
    has a contributing term, with the inner product as its value. *)
Definition mtimes_nz (X Y : Matrix) : gmap (Z * Z) Z :=
  foldr (fun k m =>
           match dot X Y k.1 k.2 with
           | Some v => <[k := v]> m
           | None => m
           end)
        ∅ (cprod (indices (rows X)) (indices (cols Y))).

(** Modelled from the spec: the binary member [zz_mtimes].  The standard
    matrix product; [X.cols] must equal [Y.rows], otherwise
    [ShapeMismatch]; a position is stored when some contributing term has
    both factors stored. *)
Definition mtimes (X Y : Matrix) : result Matrix :=
  if cols X =? rows Y
  then inr (mkMatrix (rows X) (cols Y) (mtimes_nz X Y))
  else inl ShapeMismatch.

(** [mask(P, sp)]: the entries of [P] at the positions of [sp]. *)
Definition mask (P : Matrix) (sp : gset (Z * Z)) : Matrix :=
  mkMatrix (rows P) (cols P) (filter (fun kv => kv.1 ∈ sp) (nz P)).

(** Elementwise sum of two matrices of one shape: a position is stored
    when either operand stores it. *)
Definition add (A B : Matrix) : Matrix :=
  mkMatrix (rows A) (cols A)
           (union_with (fun a b => Some (a + b)) (nz A) (nz B)).

(** Modelled from the spec: the ternary member [zz_mtimes(Y, Z)].
    It computes [X*Y], restricts it to the sparsity pattern of [Z] and
    adds it elementwise to [Z]: [Z + mask(X*Y, sparsity(Z))].  The product
    shape must equal the shape of [Z], otherwise [ShapeMismatch]. *)
Definition mtimes3 (X Y Z : Matrix) : result Matrix :=
  match mtimes X Y with
  | inl e => inl e
  | inr P =>
      if (rows P =? rows Z) && (cols P =? cols Z)
      then inr (add Z (mask P (sparsity Z)))
      else inl ShapeMismatch
  end.

(** *** Transpose *)

(** Modelled from the spec: the member [T].  Rows and columns are
    swapped and position [(i, j)] becomes [(j, i)]. *)
Definition transpose_raw (X : Matrix) : Matrix :=
  mkMatrix (cols X) (rows X) (kmap prod_swap (nz X)).

#[global] Instance Matrix_interface : SparsityInterface Matrix := {
  mat_default := mkMatrix 0 0 ∅;
  size1 := rows;
  size2 := cols;
  zz_horzcat := cat Horz;
  zz_vertcat := cat Vert;
  zz_horzsplit := split Horz;
  zz_vertsplit := split Vert;
  zz_blkdiag := blkdiag_raw;
  zz_mtimes := mtimes;
  zz_mtimes3 := mtimes3;
  T := transpose_raw
}.

(** *** Auxiliary notions for stating the laws *)

(** The coordinate of a position across the axis. *)
Definition across (ax : axis) (k : Z * Z) : Z :=
  match ax with Horz => k.1 | Vert => k.2 end.

(** The other axis. *)
Definition flip (ax : axis) : axis :=
  match ax with Horz => Vert | Vert => Horz end.

(** The boundaries of the blocks of a concatenation that starts at [o]:
    [o], then [o] plus the size of the first matrix, and so on. *)
Fixpoint offsets_of (ax : axis) (o : Z) (l : list Matrix) : list Z :=
  match l with
  | [] => [o]
  | x :: l' => o :: offsets_of ax (o + dim_along ax x) l'
  end.

(** [g] is the part of [x] that starts at [lo] along the axis and is [w]
    wide, renumbered from 0: it agrees with [x] across the axis, is [w]
    wide, and stores at [k] what [x] stores at [k] moved by [lo]. *)
Definition is_group (ax : axis) (x g : Matrix) (lo w : Z) : Prop :=
  dim_across ax g = dim_across ax x
  /\ dim_along ax g = w
  /\ forall k : Z * Z,
       nz g !! k
       = if decide (0 <= along ax k < w) then nz x !! shift ax lo k else None.

(** Each matrix of the list has as many columns as the next one has
    rows. *)
Fixpoint chain (l : list Matrix) : bool :=
  match l with
  | x :: l' =>
      match l' with
      | [] => true
      | y :: _ => (cols x =? rows y) && chain l'
      end
  | [] => true
  end.

(** Matrices used as concrete inputs. *)

(** A 2-by-3 matrix storing (0,0)=5, (1,1)=7 and (0,2)=-2. *)
Definition ex_A : Matrix :=
  mkMatrix 2 3 (<[(0, 0) := 5]> (<[(1, 1) := 7]> (<[(0, 2) := -2]> ∅))).

(** A 3-by-3 matrix storing (2,0)=1. *)
Definition ex_B : Matrix := mkMatrix 3 3 (<[(2, 0) := 1]> ∅).

(** Dense 2-by-2 matrices [[1 2; 3 4]] and [[5 6; 7 8]]. *)
Definition ex_X : Matrix :=
  mkMatrix 2 2
    (<[(0, 0) := 1]> (<[(0, 1) := 2]> (<[(1, 0) := 3]> (<[(1, 1) := 4]> ∅)))).
Definition ex_Y : Matrix :=
  mkMatrix 2 2
    (<[(0, 0) := 5]> (<[(0, 1) := 6]> (<[(1, 0) := 7]> (<[(1, 1) := 8]> ∅)))).

(** A 2-by-2 matrix storing only (0,0)=10. *)
Definition ex_Z : Matrix := mkMatrix 2 2 (<[(0, 0) := 10]> ∅).

(** A matrix with two rows and no column. *)
Definition ex_E : Matrix := mkMatrix 2 0 ∅.

End Sparse.

(** * Properties *)

(** ** The computation monad *)

Lemma bind_ret_run {A B} (a : A) (k : A -> Op B) (t : trace) :
  (mret a ≫= k) t = k a t.
Proof. reflexivity. Qed.

Lemma bind_call_ok {A B} (p : member) (a : A) (k : A -> Op B) (t : trace) :
  (call p (inr a) ≫= k) t = k a (t ++ [p]).
Proof. reflexivity. Qed.

Lemma bind_call_err {A B} (p : member) (e : error) (k : A -> Op B) (t : trace) :
  (call p (inl e) ≫= k) t = (t ++ [p], inl e).
Proof. reflexivity. Qed.

Lemma bind_ext {A B} (m m' : Op A) (k k' : A -> Op B) :
  (forall t, m t = m' t) -> (forall a t, k a t = k' a t) ->
  forall t, (m ≫= k) t = (m' ≫= k') t.
Proof.
  intros Hm Hk t. unfold mbind, Op_bind, op_bind. rewrite Hm.
  destruct (m' t) as [t' [e|a]]; [reflexivity | apply Hk].
Qed.

Lemma bind_assoc_run {A B C} (m : Op A) (k : A -> Op B) (h : B -> Op C) t :
  ((m ≫= k) ≫= h) t = (m ≫= fun a => k a ≫= h) t.
Proof.
  unfold mbind, Op_bind, op_bind.
  destruct (m t) as [t' [e|a]]; reflexivity.
Qed.

Lemma assert_true_run {B} (k : unit -> Op B) (t : trace) :
  (casadi_assert true ≫= k) t = k tt t.
Proof. reflexivity. Qed.

Lemma assert_false_run {B} (k : unit -> Op B) (t : trace) :
  (casadi_assert false ≫= k) t = (t, inl InvalidArgument).
Proof. reflexivity. Qed.

(** ** [range] *)

Lemma range_step1 (n : nat) :
  range 0 (Z.of_nat n) 1 = Z.of_nat <$> seq 0 n.
Proof.
  unfold range.
  replace (Z.of_nat n - 0 + 1 - 1) with (Z.of_nat n) by lia.
  rewrite Z.div_1_r, Nat2Z.id.
  apply list_fmap_ext. intros _ k _. lia.
Qed.

Lemma seq_snoc (a n : nat) : seq a (S n) = seq a n ++ [(a + n)%nat].
Proof. rewrite seq_S. reflexivity. Qed.

(** The offsets [[a, a+1, ..., a+n]] describe the [n] one-wide groups
    [[k, k+1)]. *)
Lemma bounds_unit_steps (n a : nat) :
  Sparse.bounds (Z.of_nat (a + n)) (Z.of_nat <$> seq a (S n))
  = (fun k : nat => (Z.of_nat k, Z.of_nat k + 1)) <$> seq a n.
Proof.
  revert a. induction n as [|n IH]; intros a; [reflexivity|].
  destruct n as [|n].
  - simpl. do 3 f_equal. lia.
  - specialize (IH (S a)).
    replace (S a + S n)%nat with (a + S (S n))%nat in IH by lia.
    change (seq a (S (S (S n)))) with (a :: S a :: seq (S (S a)) (S n)).
    change (seq (S a) (S (S n))) with (S a :: seq (S (S a)) (S n)) in IH.
    change (seq a (S (S n))) with (a :: seq (S a) (S n)).
    rewrite !fmap_cons in *.
    destruct (seq (S (S a)) (S n)) eqn:E; [discriminate|].
    rewrite fmap_cons in *. simpl Sparse.bounds in *.
    rewrite IH. do 2 f_equal. lia.
Qed.

(** ** The generic layer *)

Section AlgebraLaws.
Context {MatType : Type} `{SparsityInterface MatType}.

Lemma vector2_eq (x y : MatType) : vector2 x y = [x; y].
Proof. reflexivity. Qed.

Lemma horzsplit_incr_run (v : MatType) (incr : Z) (t : trace) :
  1 <= incr ->
  horzsplit_incr v incr t
  = horzsplit v (range 0 (size2 v) incr ++ [size2 v]) (t ++ [M_size2]).
Proof.
  intros Hincr. unfold horzsplit_incr.
  replace (1 <=? incr) with true by (symmetry; apply Z.leb_le; lia).
  rewrite assert_true_run. reflexivity.
Qed.

Lemma vertsplit_incr_run (v : MatType) (incr : Z) (t : trace) :
  1 <= incr ->
  vertsplit_incr v incr t
  = vertsplit v (range 0 (size1 v) incr ++ [size1 v]) (t ++ [M_size1]).
Proof.
  intros Hincr. unfold vertsplit_incr.
  replace (1 <=? incr) with true by (symmetry; apply Z.leb_le; lia).
  rewrite assert_true_run. reflexivity.
Qed.

(** The accumulator of the fold can be run first. *)
Lemma mul_fold_bind (m : Op MatType) (rest : list MatType) (t : trace) :
  foldl (fun acc e => r ← acc; mul r e) m rest t
  = (m ≫= fun r => mul_fold_spec r rest) t.
Proof.
  revert m t. induction rest as [|e rest IH]; intros m t; simpl.
  - unfold mbind, Op_bind, op_bind, mret, Op_ret, op_ret.
    destruct (m t) as [t' [err|a]]; reflexivity.
  - rewrite IH. unfold mul_fold_spec. simpl.
    rewrite bind_assoc_run. apply bind_ext; [reflexivity|].
    intros a t'. rewrite IH. reflexivity.
Qed.

(** Running the loop over the remaining elements [l] of [pre ++ l], from
    index [length pre], is the fold over [l]. *)
Lemma mul_loop_fold (pre l : list MatType) (ret : MatType) (t : trace) :
  mul_loop (pre ++ l) (length l) (length pre) ret t = mul_fold_spec ret l t.
Proof.
  revert pre ret t. induction l as [|e l IH]; intros pre ret t;
    [reflexivity|].
  cbn [length mul_loop].
  rewrite list_lookup_middle by reflexivity.
  unfold mul_fold_spec. cbn [foldl]. rewrite mul_fold_bind.
  rewrite bind_assoc_run, bind_ret_run.
  apply bind_ext; [reflexivity|]. intros r t'.
  specialize (IH (pre ++ [e]) r t').
  rewrite <- app_assoc, length_app in IH. simpl in IH.
  replace (length pre + 1)%nat with (S (length pre)) in IH by lia.
  exact IH.
Qed.

Lemma mul_list_cons (first : MatType) (rest : list MatType) (t : trace) :
  mul_list (first :: rest) t = mul_fold_spec first rest t.
Proof.
  unfold mul_list.
  replace (1 <=? Z.of_nat (length (first :: rest))) with true
    by (symmetry; apply Z.leb_le; simpl; lia).
  rewrite assert_true_run. cbn [lookup list_lookup length].
  replace (S (length rest) - 1)%nat with (length rest) by lia.
  apply (mul_loop_fold [first] rest first t).
Qed.

End AlgebraLaws.

Section AlgebraClaims.
Context {MatType : Type} `{SparsityInterface MatType}.

(** C3: on a non-empty list the n-ary [mul] is the left-to-right fold
    that starts from the first element and combines each further element
    [e] as [result = mul(result, e)]; in particular [mul([A, B, C])] is
    [mul(mul(A, B), C)] and [mul([A])] returns [A] without calling any
    member.  An exception thrown by a binary product ends both sides
    at the same point. *)
Theorem mul_list_left_fold
    (first : MatType) (rest : list MatType) (A B C : MatType) (t : trace) :
  mul_list (first :: rest) t = mul_fold_spec first rest t
  /\ mul_list [A; B; C] t = (AB ← mul A B; mul AB C) t
  /\ mul_list [A] t = (t, inr A).
Proof.
  split; [apply mul_list_cons|].
  split; [|reflexivity].
  rewrite mul_list_cons. unfold mul_fold_spec. cbn [foldl].
  apply bind_ext; [|reflexivity].
  intros t'. apply (bind_ret_run A (fun r => mul r B)).
Qed.

(** C4: for an increment [incr >= 1], [horzsplit(v, incr)] reads
    [size2] and then is [horzsplit(v, offsets)] with
    [offsets = range(0, v.cols, incr)] followed by [v.cols]; likewise
    [vertsplit(v, incr)] with [size1] and the rows. *)
Theorem split_incr_explicit (v : MatType) (incr : Z) (t : trace) :
  1 <= incr ->
  horzsplit_incr v incr t
  = horzsplit v (range 0 (size2 v) incr ++ [size2 v]) (t ++ [M_size2])
  /\ vertsplit_incr v incr t
     = vertsplit v (range 0 (size1 v) incr ++ [size1 v]) (t ++ [M_size1]).
Proof.
  intros Hincr. split.
  - apply horzsplit_incr_run, Hincr.
  - apply vertsplit_incr_run, Hincr.
Qed.

(** C5: for an increment [incr < 1], [horzsplit(v, incr)] and
    [vertsplit(v, incr)] throw [InvalidArgument] with the trace of member
    calls unchanged: neither a split member nor a size accessor has been
    called, and no list of matrices is returned. *)
Theorem split_incr_invalid (v : MatType) (incr : Z) (t : trace) :
  incr < 1 ->
  horzsplit_incr v incr t = (t, inl InvalidArgument)
  /\ vertsplit_incr v incr t = (t, inl InvalidArgument).
Proof.
  intros Hincr. unfold horzsplit_incr, vertsplit_incr.
  replace (1 <=? incr) with false by (symmetry; apply Z.leb_gt; lia).
  split; apply assert_false_run.
Qed.

(** C6: the n-ary [mul] of the empty list throws [InvalidArgument] and
    leaves the trace of member calls unchanged: no product member and no
    accessor of the representation has been called. *)
Theorem mul_list_empty (t : trace) :
  mul_list (@nil MatType) t = (t, inl InvalidArgument).
Proof. reflexivity. Qed.

(** C7: each two-argument overload is the list form applied to the
    two-element vector [[x, y]], for [horzcat], [vertcat] and
    [blkdiag]. *)
Theorem binary_overloads_delegate (x y : MatType) :
  horzcat2 x y = horzcat [x; y]
  /\ vertcat2 x y = vertcat [x; y]
  /\ blkdiag2 x y = blkdiag [x; y].
Proof.
  unfold horzcat2, vertcat2, blkdiag2. rewrite vector2_eq. auto.
Qed.

(** C10: [horzsplit(v)] and [vertsplit(v)] with the increment left out
    are [horzsplit(v, 1)] and [vertsplit(v, 1)].  For a matrix with
    non-negative dimensions the offsets passed on are [[0, 1, ..., cols]]
    (respectively rows), whose groups are the one-wide ranges
    [[k, k+1)], one per column (respectively row). *)
Theorem split_default_unit_increment (v : MatType) (t : trace) :
  0 <= size1 v -> 0 <= size2 v ->
  (horzsplit_default v t = horzsplit_incr v 1 t
   /\ horzsplit_incr v 1 t
      = horzsplit v (unit_offsets (size2 v)) (t ++ [M_size2])
   /\ Sparse.bounds (size2 v) (unit_offsets (size2 v))
      = (fun k : nat => (Z.of_nat k, Z.of_nat k + 1))
          <$> seq 0 (Z.to_nat (size2 v)))
  /\ (vertsplit_default v t = vertsplit_incr v 1 t
      /\ vertsplit_incr v 1 t
         = vertsplit v (unit_offsets (size1 v)) (t ++ [M_size1])
      /\ Sparse.bounds (size1 v) (unit_offsets (size1 v))
         = (fun k : nat => (Z.of_nat k, Z.of_nat k + 1))
             <$> seq 0 (Z.to_nat (size1 v))).
Proof.
  intros H1 H2.
  assert (Hoff : forall n, 0 <= n -> range 0 n 1 ++ [n] = unit_offsets n).
  { intros n Hn. unfold unit_offsets.
    rewrite <- (Z2Nat.id n) at 1 2 by lia.
    rewrite range_step1, seq_snoc, fmap_app. reflexivity. }
  assert (Hb : forall n, 0 <= n ->
            Sparse.bounds n (unit_offsets n)
            = (fun k : nat => (Z.of_nat k, Z.of_nat k + 1))
                <$> seq 0 (Z.to_nat n)).
  { intros n Hn. unfold unit_offsets.
    rewrite <- (Z2Nat.id n) at 1 by lia.
    apply (bounds_unit_steps (Z.to_nat n) 0). }
  split; (split; [reflexivity|]); split.
  - rewrite horzsplit_incr_run, Hoff by lia. reflexivity.
  - apply Hb, H2.
  - rewrite vertsplit_incr_run, Hoff by lia. reflexivity.
  - apply Hb, H1.
Qed.

End AlgebraClaims.

Lemma split_incr_explicit_witness :
  1 <= 2
  /\ (horzsplit_incr Sparse.ex_A 2 []
      = horzsplit Sparse.ex_A
          (range 0 (size2 Sparse.ex_A) 2 ++ [size2 Sparse.ex_A]) ([] ++ [M_size2])
      /\ vertsplit_incr Sparse.ex_A 2 []
         = vertsplit Sparse.ex_A
             (range 0 (size1 Sparse.ex_A) 2 ++ [size1 Sparse.ex_A])
             ([] ++ [M_size1])).
Proof.
  split; [lia | apply (split_incr_explicit Sparse.ex_A 2 []); lia].
Defined.

Lemma split_incr_invalid_witness :
  0 < 1
  /\ (horzsplit_incr Sparse.ex_A 0 [M_T] = ([M_T], inl InvalidArgument)
      /\ vertsplit_incr Sparse.ex_A 0 [M_T] = ([M_T], inl InvalidArgument)).
Proof.
  split; [lia | apply (split_incr_invalid Sparse.ex_A 0 [M_T]); lia].
Defined.

(** ** The sparse matrix *)

Section SparseLaws.
Import Sparse.

Lemma kmap_swap_swap (m : gmap (Z * Z) Z) :
  kmap prod_swap (kmap prod_swap m) = m.
Proof.
  apply map_eq. intros [i j].
  change (i, j) with (prod_swap (j, i)). rewrite lookup_kmap by apply _.
  change (j, i) with (prod_swap (i, j)). rewrite lookup_kmap by apply _.
  reflexivity.
Qed.

Lemma transpose_raw_lookup (X : Matrix) (i j : Z) :
  nz (transpose_raw X) !! (j, i) = nz X !! (i, j).
Proof.
  unfold transpose_raw. cbn [nz].
  change (j, i) with (prod_swap (i, j)). apply lookup_kmap, _.
Qed.

Lemma transpose_raw_involutive (X : Matrix) :
  transpose_raw (transpose_raw X) = X.
Proof.
  destruct X as [r c m]. unfold transpose_raw. cbn [rows cols nz].
  f_equal. apply kmap_swap_swap.
Qed.


Lemma add_mask_lookup (Z0 P : Matrix) (k : Z * Z) :
  nz (add Z0 (mask P (sparsity Z0))) !! k
  = match nz Z0 !! k with
    | Some z => Some (z + default 0 (nz P !! k))
    | None => None
    end.
Proof.
  unfold add, mask, sparsity. cbn [nz].
  rewrite lookup_union_with, map_lookup_filter.
  destruct (nz Z0 !! k) as [z|] eqn:HZ; destruct (nz P !! k) as [p|] eqn:HP;
    cbn; try rewrite Z.add_0_r; try reflexivity.
  - rewrite option_guard_True by (apply elem_of_dom; eauto). reflexivity.
  - rewrite option_guard_False; [reflexivity|].
    rewrite not_elem_of_dom. exact HZ.
Qed.

(** The product stores the inner product at every position of the result
    shape that has a contributing term, and nothing else. *)
Lemma fold_insert_lookup (f : Z * Z -> option Z) (ks : list (Z * Z)) (k : Z * Z) :
  foldr (fun k m => match f k with Some v => <[k := v]> m | None => m end)
        (∅ : gmap (Z * Z) Z) ks !! k
  = if decide (k ∈ ks) then f k else None.
Proof.
  induction ks as [|k0 ks IH]; cbn [foldr].
  - rewrite lookup_empty.
    destruct (decide (k ∈ [])) as [Hin|]; [inversion Hin | reflexivity].
  - destruct (decide (k = k0)) as [->|Hne].
    + rewrite decide_True by apply list_elem_of_here.
      destruct (f k0) as [v|] eqn:Hf.
      * apply lookup_insert_eq.
      * rewrite IH. case_decide; congruence.
    + assert (Hiff : k ∈ k0 :: ks <-> k ∈ ks).
      { rewrite elem_of_cons. tauto. }
      destruct (f k0) as [v|].
      * rewrite lookup_insert_ne by congruence.
        rewrite IH. apply decide_ext, symmetry, Hiff.
      * rewrite IH. apply decide_ext, symmetry, Hiff.
Qed.

Lemma mtimes_nz_lookup (X Y : Matrix) (i j : Z) :
  mtimes_nz X Y !! (i, j)
  = if decide ((0 <= i < rows X) /\ (0 <= j < cols Y))
    then dot X Y i j else None.
Proof.
  unfold mtimes_nz.
  rewrite (fold_insert_lookup (fun k => dot X Y k.1 k.2)).
  apply decide_ext. rewrite list_elem_of_cprod. unfold indices.
  rewrite !elem_of_seqZ. simpl. lia.
Qed.

(** The value of [dot] is the sum of the products of the entries. *)
Lemma dot_inner (X Y : Matrix) (i j : Z) :
  default 0 (dot X Y i j) = inner X Y i j.
Proof.
  unfold dot, inner, entry.
  induction (indices (cols X)) as [|k ks IH]; [reflexivity|].
  cbn [foldr]. rewrite <- IH.
  destruct (nz X !! (i, k)) as [a|]; [destruct (nz Y !! (k, j)) as [b|]|];
    simpl; lia.
Qed.

(** [dot] finds a value exactly when some term has both factors stored. *)
Lemma dot_is_Some (X Y : Matrix) (i j : Z) :
  is_Some (dot X Y i j)
  <-> exists k, (0 <= k < cols X)
                /\ is_Some (nz X !! (i, k)) /\ is_Some (nz Y !! (k, j)).
Proof.
  unfold dot, indices.
  assert (Hgen : forall ks : list Z,
    is_Some (foldr (fun k acc =>
                      match nz X !! (i, k), nz Y !! (k, j) with
                      | Some a, Some b => Some (a * b + default 0 acc)
                      | _, _ => acc
                      end) None ks)
    <-> exists k, k ∈ ks /\ is_Some (nz X !! (i, k))
                  /\ is_Some (nz Y !! (k, j))).
  { induction ks as [|k0 ks IH]; cbn [foldr].
    - split; [intros [? ?]; discriminate|].
      intros (k & Hk & _). inversion Hk.
    - split.
      + destruct (nz X !! (i, k0)) as [a|] eqn:HX;
          [destruct (nz Y !! (k0, j)) as [b|] eqn:HY|].
        * intros _. exists k0. rewrite HX, HY.
          split; [apply list_elem_of_here | eauto].
        * intros Hs. apply IH in Hs as (k & Hk & Hs).
          exists k. split; [apply list_elem_of_further, Hk | exact Hs].
        * intros Hs. apply IH in Hs as (k & Hk & Hs).
          exists k. split; [apply list_elem_of_further, Hk | exact Hs].
      + intros (k & Hk & [a Ha] & [b Hb]).
        apply elem_of_cons in Hk as [->|Hk].
        * rewrite Ha, Hb. eauto.
        * assert (Hs : is_Some (foldr (fun k acc =>
                      match nz X !! (i, k), nz Y !! (k, j) with
                      | Some a, Some b => Some (a * b + default 0 acc)
                      | _, _ => acc
                      end) None ks)) by (apply IH; eauto).
          destruct (nz X !! (i, k0)); [destruct (nz Y !! (k0, j))|];
            eauto. }
  rewrite Hgen. split; intros (k & Hk & Hs); exists k;
    (split; [|exact Hs]).
  - apply elem_of_seqZ in Hk. lia.
  - apply elem_of_seqZ. lia.
Qed.

(** C8: [transpose(X)] calls the member once and returns the matrix with
    the row and column counts of [X] swapped that stores at [(j, i)] what
    [X] stores at [(i, j)]; transposing twice gives back the matrix,
    whatever its shape (no condition on [X]: non-square and empty matrices
    included). *)
Theorem transpose_involution (X : Matrix) (t : trace) :
  (exists R : Matrix,
     transpose X t = (t ++ [M_T], inr R)
     /\ rows R = cols X
     /\ cols R = rows X
     /\ forall i j : Z, nz R !! (j, i) = nz X !! (i, j))
  /\ (Y ← transpose X; transpose Y) t = (t ++ [M_T; M_T], inr X)
  /\ rows (T X) = cols X
  /\ cols (T X) = rows X
  /\ forall i j : Z, nz (T X) !! (j, i) = nz X !! (i, j).
Proof.
  split; [|split; [|split; [reflexivity|split; [reflexivity|]]]].
  - exists (transpose_raw X). split; [reflexivity|].
    split; [reflexivity|]. split; [reflexivity|].
    intros i j. apply transpose_raw_lookup.
  - unfold transpose. rewrite bind_call_ok. unfold call.
    cbn [T Matrix_interface]. rewrite transpose_raw_involutive.
    rewrite <- app_assoc. reflexivity.
  - intros i j. apply transpose_raw_lookup.
Qed.





Lemma check_shapes_ok (ax : axis) (a : Z) (n : nat) (l : list Matrix) :
  forallb (fun y => dim_across ax y =? a) l = true ->
  check_shapes ax a n l = (ReadShape <$> seq n (length l), true).
Proof.
  revert n. induction l as [|y l IH]; intros n Hall; [reflexivity|].
  cbn [forallb] in Hall. apply andb_prop in Hall as [Hy Hall].
  cbn [check_shapes length seq fmap list_fmap]. rewrite Hy, (IH _ Hall).
  reflexivity.
Qed.

Lemma copy_blocks_steps (ax : axis) (off : Z) (n : nat) (l : list Matrix) :
  (copy_blocks ax off n l).1 = CopyData <$> seq n (length l).
Proof.
  revert off n. induction l as [|x l IH]; intros off n; [reflexivity|].
  cbn [copy_blocks fst length seq fmap list_fmap]. rewrite IH. reflexivity.
Qed.

(** When all inputs agree across the axis, the member reads every shape
    and then copies every input. *)
Lemma cat_run_ok (ax : axis) (x : Matrix) (l : list Matrix) :
  forallb (fun y => dim_across ax y =? dim_across ax x) (x :: l) = true ->
  (cat_run ax (x :: l)).1
  = (ReadShape <$> seq 0 (S (length l))) ++ (CopyData <$> seq 0 (S (length l))).
Proof.
  intros Hall. unfold cat_run.
  rewrite (check_shapes_ok _ _ _ _ Hall). cbn [fst snd].
  rewrite copy_blocks_steps. reflexivity.
Qed.



(** C2: when [X.cols = Y.rows] and the shape of the product [P = X*Y]
    is the shape of [Z], the ternary [mul(X, Y, Z)] returns
    [R = Z + mask(P, sparsity(Z))]: [R] has the shape and exactly the
    sparsity pattern of [Z], each position of the pattern holds the value
    of [Z] plus the entry of [P] there, and a position outside the pattern
    of [Z] is absent from [R] whatever [P] stores there.  Inside its shape
    the entry of [P] is the sum over [k] of [X[i,k] * Y[k,j]]. *)
Theorem mul3_masked_accumulate (X Y Z0 : Matrix) (t : trace) :
  cols X = rows Y -> rows X = rows Z0 -> cols Y = cols Z0 ->
  exists P R : Matrix,
    mul X Y t = (t ++ [M_mtimes], inr P)
    /\ mul3 X Y Z0 t = (t ++ [M_mtimes3], inr R)
    /\ R = add Z0 (mask P (sparsity Z0))
    /\ rows R = rows Z0 /\ cols R = cols Z0
    /\ sparsity R = sparsity Z0
    /\ (forall i j, (i, j) ∈ sparsity Z0 ->
          nz R !! (i, j) = Some (entry Z0 i j + entry P i j))
    /\ (forall i j, (i, j) ∉ sparsity Z0 -> nz R !! (i, j) = None)
    /\ (forall i j, 0 <= i < rows X -> 0 <= j < cols Y ->
          entry P i j = inner X Y i j).
Proof.
  intros Hinner Hrows Hcols.
  exists (mkMatrix (rows X) (cols Y) (mtimes_nz X Y)).
  eexists. split; [|split; [|split; [reflexivity|]]].
  - unfold mul, call. cbn [zz_mtimes Matrix_interface]. unfold mtimes.
    rewrite Hinner, Z.eqb_refl. reflexivity.
  - unfold mul3, call. cbn [zz_mtimes3 Matrix_interface].
    unfold mtimes3, mtimes. rewrite Hinner, Z.eqb_refl. cbn [rows cols].
    rewrite Hrows, Hcols, !Z.eqb_refl. reflexivity.
  - split; [reflexivity|]. split; [reflexivity|].
    split; [|split; [|split]].
    + apply set_eq. intros k. unfold sparsity at 1 3.
      rewrite !elem_of_dom, add_mask_lookup.
      destruct (nz Z0 !! k); split; intros [? ?]; eauto; discriminate.
    + intros i j Hin. rewrite add_mask_lookup. unfold entry.
      unfold sparsity in Hin.
      apply elem_of_dom in Hin as [z Hz]. rewrite Hz. reflexivity.
    + intros i j Hnin. rewrite add_mask_lookup.
      unfold sparsity in Hnin.
      apply not_elem_of_dom in Hnin. rewrite Hnin. reflexivity.
    + intros i j Hi Hj. unfold entry at 1. cbn [nz].
      rewrite mtimes_nz_lookup, decide_True by lia.
      apply dot_inner.
Qed.

End SparseLaws.

(** ** Splitting and concatenating back *)

Section RoundTrip.
Import Sparse.

Lemma nz_mk (ax : axis) a b m : nz (mk ax a b m) = m.
Proof. destruct ax; reflexivity. Qed.

Lemma dim_along_mk (ax : axis) a b m : dim_along ax (mk ax a b m) = b.
Proof. destruct ax; reflexivity. Qed.

Lemma dim_across_mk (ax : axis) a b m : dim_across ax (mk ax a b m) = a.
Proof. destruct ax; reflexivity. Qed.

Lemma mk_dims (ax : axis) (v : Matrix) : mk ax (dim_across ax v) (dim_along ax v) (nz v) = v.
Proof. destruct ax, v; reflexivity. Qed.

Lemma shift_shift (ax : axis) a b k : shift ax a (shift ax b k) = shift ax (b + a) k.
Proof. destruct ax, k; simpl; f_equal; lia. Qed.

Lemma shift_0 (ax : axis) k : shift ax 0 k = k.
Proof. destruct ax, k; simpl; f_equal; lia. Qed.

(** Moving a group back to where it was cut gives the entries of [v]
    in that range. *)
Lemma slice_shift_back (ax : axis) (v : Matrix) (lo hi : Z) :
  kmap (shift ax lo) (nz (slice ax v lo hi))
  = filter (fun kv => lo <= along ax kv.1 < hi) (nz v).
Proof.
  unfold slice. rewrite nz_mk. apply map_eq. intros k.
  rewrite <- (shift_0 ax k) at 1.
  replace 0 with (- lo + lo) by lia.
  rewrite <- shift_shift.
  rewrite lookup_kmap by apply _.
  rewrite <- (shift_0 ax k) at 2.
  replace 0 with (lo + - lo) by lia.
  rewrite <- shift_shift.
  rewrite lookup_kmap by apply _.
  rewrite shift_shift. replace (lo + - lo) with 0 by lia.
  rewrite shift_0. reflexivity.
Qed.

(** Two neighbouring ranges make up the range that spans them. *)
Lemma filter_range_join (ax : axis) (m : gmap (Z * Z) Z) (lo mid hi : Z) :
  lo <= mid <= hi ->
  filter (fun kv => lo <= along ax kv.1 < mid) m
  ∪ filter (fun kv => mid <= along ax kv.1 < hi) m
  = filter (fun kv => lo <= along ax kv.1 < hi) m.
Proof.
  intros Hmid. rewrite <- map_filter_or.
  apply map_filter_ext. intros k x _. simpl. lia.
Qed.

Lemma bounds_cons (N o o' : Z) (rest : list Z) :
  bounds N (o :: o' :: rest)
  = (o, match rest with [] => N | _ :: _ => o' end) :: bounds N (o' :: rest).
Proof. destruct rest; reflexivity. Qed.

Lemma slices_cons (ax : axis) v N o o' rest :
  slices ax v N (o :: o' :: rest)
  = slice ax v o (match rest with [] => N | _ :: _ => o' end)
      :: slices ax v N (o' :: rest).
Proof. unfold slices. rewrite bounds_cons. reflexivity. Qed.

Lemma slices_single (ax : axis) v N o : slices ax v N [o] = [].
Proof. reflexivity. Qed.

(** The groups, put side by side from [o] on, hold the entries of [v]
    between [o] and the end. *)
Lemma cat_nz_slices (ax : axis) (v : Matrix) (N : Z) (os : list Z) (o : Z) :
  os <> [] -> monotone o N os = true ->
  cat_nz ax o (slices ax v N (o :: os))
  = filter (fun kv => o <= along ax kv.1 < N) (nz v).
Proof.
  revert o. induction os as [|o' rest IH]; intros o Hne Hmono; [done|].
  cbn [monotone] in Hmono.
  apply andb_prop in Hmono as [Hb Hmono].
  apply andb_prop in Hb as [Hlo Hhi].
  apply Z.leb_le in Hlo, Hhi.
  rewrite slices_cons. cbn [cat_nz].
  rewrite slice_shift_back. unfold slice at 1. rewrite dim_along_mk.
  destruct rest as [|o'' rest].
  - rewrite slices_single. cbn [cat_nz].
    apply (right_id_L ∅ (∪)).
  - replace (o + (o' - o)) with o' by lia.
    rewrite IH by done.
    apply filter_range_join. lia.
Qed.

(** The widths of the groups add up to what lies between the first
    boundary and the end. *)
Lemma sum_along_slices (ax : axis) (v : Matrix) (N : Z) (os : list Z) (o : Z) :
  os <> [] -> sum_along ax (slices ax v N (o :: os)) = N - o.
Proof.
  revert o. induction os as [|o' rest IH]; intros o Hne; [done|].
  rewrite slices_cons. cbn [sum_along foldr].
  unfold slice at 1. rewrite dim_along_mk.
  destruct rest as [|o'' rest].
  - rewrite slices_single. simpl. lia.
  - fold (sum_along ax (slices ax v N (o' :: o'' :: rest))).
    rewrite IH by done. lia.
Qed.

Lemma slices_across (ax : axis) (v : Matrix) (N : Z) (offset : list Z) (a : Z) :
  a = dim_across ax v ->
  forallb (fun y => dim_across ax y =? a) (slices ax v N offset) = true.
Proof.
  intros ->. unfold slices. apply forallb_forall. intros y Hy.
  apply in_map_iff in Hy as [b [<- _]].
  unfold slice. rewrite dim_across_mk. apply Z.eqb_refl.
Qed.

(** A well-formed matrix stores nothing outside its shape. *)
Lemma filter_whole (ax : axis) (v : Matrix) :
  wf v ->
  filter (fun kv => 0 <= along ax kv.1 < dim_along ax v) (nz v) = nz v.
Proof.
  intros (_ & _ & Hin). apply map_filter_id. intros k x Hk.
  specialize (Hin k x Hk). simpl in Hin. destruct ax; simpl; lia.
Qed.

(** Splitting along an axis at a partition and concatenating the groups
    along the same axis gives back the matrix. *)
Lemma cat_split (ax : axis) (v : Matrix) (offset : list Z) :
  wf v -> partitions (dim_along ax v) offset = true ->
  exists l, split ax v offset = inr l /\ cat ax l = inr v.
Proof.
  intros Hwf Hpart. unfold partitions in Hpart.
  apply andb_prop in Hpart as [Hvalid Hlen].
  exists (slices ax v (dim_along ax v) offset).
  unfold split. rewrite Hvalid. split; [reflexivity|].
  destruct offset as [|o0 [|o1 rest]]; [discriminate..|].
  cbn [valid_offsets] in Hvalid.
  apply andb_prop in Hvalid as [Hb Hmono].
  apply andb_prop in Hb as [Ho0 HN].
  apply Z.eqb_eq in Ho0. subst o0.
  unfold cat.
  pose proof (slices_cons ax v (dim_along ax v) 0 o1 rest) as Hcons.
  destruct (slices ax v (dim_along ax v) (0 :: o1 :: rest))
    as [|x l'] eqn:Hsl; [discriminate|].
  assert (Hx : dim_across ax x = dim_across ax v).
  { injection Hcons as -> _. unfold slice. apply dim_across_mk. }
  rewrite <- Hsl.
  rewrite slices_across by exact Hx.
  rewrite Hx, sum_along_slices, cat_nz_slices by done.
  rewrite Z.sub_0_r, filter_whole by exact Hwf.
  rewrite mk_dims. reflexivity.
Qed.

(** The single-group sequence [[0, N]] and, for [N >= 1], the all-singleton
    sequence [[0, 1, ..., N]] are partitions. *)
Lemma partitions_single_group (N : Z) :
  0 <= N -> partitions N [0; N] = true.
Proof.
  intros HN. unfold partitions, valid_offsets. cbn [monotone length].
  rewrite Z.eqb_refl.
  replace (0 <=? N) with true by (symmetry; apply Z.leb_le; lia).
  replace (N <=? N) with true by (symmetry; apply Z.leb_le; lia).
  reflexivity.
Qed.

Lemma monotone_seq (N : Z) (n a : nat) :
  Z.of_nat (a + n) <= N ->
  monotone (Z.of_nat a) N (Z.of_nat <$> seq (S a) n) = true.
Proof.
  revert a. induction n as [|n IH]; intros a Hle; [reflexivity|].
  cbn [seq fmap list_fmap monotone].
  rewrite IH by lia.
  replace (Z.of_nat a <=? Z.of_nat (S a)) with true
    by (symmetry; apply Z.leb_le; lia).
  replace (Z.of_nat (S a) <=? N) with true
    by (symmetry; apply Z.leb_le; lia).
  reflexivity.
Qed.

Lemma partitions_unit_offsets (N : Z) :
  0 <= N -> partitions N (unit_offsets N) = (1 <=? N).
Proof.
  intros HN. unfold partitions, unit_offsets.
  rewrite length_fmap, length_seq.
  change (Z.of_nat <$> seq 0 (S (Z.to_nat N)))
    with (Z.of_nat 0%nat :: (Z.of_nat <$> seq 1 (Z.to_nat N))).
  cbn [valid_offsets].
  pose proof (monotone_seq N (Z.to_nat N) 0) as Hmono.
  change (Z.of_nat 0) with 0 in *.
  rewrite Hmono, Z.eqb_refl by lia.
  replace (0 <=? N) with true by (symmetry; apply Z.leb_le; lia).
  cbn [andb].
  destruct (Z.leb_spec 1 N) as [H1|H1].
  - apply Nat.leb_le. lia.
  - apply Nat.leb_gt. lia.
Qed.

(** With the offsets [[0]] there is no group: every matrix without columns
    splits into the empty list, whatever its row count, so no choice of what
    concatenating the empty list returns can give all of them back. *)
Lemma zero_groups_lose_shape (c : list Matrix -> result Matrix) :
  exists x : Matrix,
    wf x /\ valid_offsets (cols x) [0] = true
    /\ split Horz x [0] = inr [] /\ c [] <> inr x.
Proof.
  assert (Hwf : forall r, 0 <= r -> wf (mkMatrix r 0 ∅)).
  { intros r Hr. unfold wf. cbn [rows cols nz].
    split; [lia|]. split; [lia|]. apply map_Forall_empty. }
  destruct (c []) as [e|m] eqn:Hc.
  - exists (mkMatrix 2 0 ∅). split; [apply Hwf; lia|].
    split; [reflexivity|]. split; [reflexivity|]. discriminate.
  - destruct (decide (rows m = 2)) as [Hm|Hm].
    + exists (mkMatrix 3 0 ∅). split; [apply Hwf; lia|].
      split; [reflexivity|]. split; [reflexivity|].
      intros [= ->]. discriminate.
    + exists (mkMatrix 2 0 ∅). split; [apply Hwf; lia|].
      split; [reflexivity|]. split; [reflexivity|].
      intros [= ->]. apply Hm. reflexivity.
Qed.

(** X17: for a well-formed matrix [x] and an offset sequence that
    partitions its columns into at least one group, [horzsplit] followed
    by [horzcat] returns [x] itself: same shape, same stored positions,
    same values; likewise [vertsplit] followed by [vertcat] for a partition
    of the rows into at least one group.  The single-group sequence
    [[0, N]] is such a partition, and so is the all-singleton sequence
    [[0, 1, ..., N]] exactly when [N >= 1]. *)
Theorem split_cat_roundtrip
    (x : Matrix) (Oc Or : list Z) (t : trace) :
  wf x ->
  partitions (cols x) Oc = true ->
  partitions (rows x) Or = true ->
  ((l ← horzsplit x Oc; horzcat l) t
     = (t ++ [M_horzsplit; M_horzcat], inr x)
   /\ (l ← vertsplit x Or; vertcat l) t
      = (t ++ [M_vertsplit; M_vertcat], inr x))
  /\ (partitions (cols x) [0; cols x] = true
      /\ partitions (rows x) [0; rows x] = true)
  /\ (partitions (cols x) (unit_offsets (cols x)) = (1 <=? cols x)
      /\ partitions (rows x) (unit_offsets (rows x)) = (1 <=? rows x)).
Proof.
  intros Hwf Hc Hr.
  destruct (cat_split Horz x Oc Hwf Hc) as (lc & Hsc & Hcc).
  destruct (cat_split Vert x Or Hwf Hr) as (lr & Hsr & Hcr).
  destruct Hwf as (Hrows & Hcols & _).
  split; [|split; split].
  - unfold horzsplit, vertsplit, horzcat, vertcat.
    cbn [zz_horzsplit zz_vertsplit zz_horzcat zz_vertcat Matrix_interface].
    rewrite Hsc, Hsr, !bind_call_ok. unfold call.
    rewrite Hcc, Hcr, <- !app_assoc. split; reflexivity.
  - apply partitions_single_group, Hcols.
  - apply partitions_single_group, Hrows.
  - apply partitions_unit_offsets, Hcols.
  - apply partitions_unit_offsets, Hrows.
Qed.

End RoundTrip.

(** ** The laws at concrete matrices *)

Lemma wf_ex_A : Sparse.wf Sparse.ex_A.
Proof.
  unfold Sparse.wf. split; [simpl; lia|]. split; [simpl; lia|].
  apply (bool_decide_unpack _). vm_compute. exact I.
Defined.

Lemma split_cat_roundtrip_witness :
  Sparse.wf Sparse.ex_A
  /\ Sparse.partitions (Sparse.cols Sparse.ex_A) [0; 1; 3] = true
  /\ Sparse.partitions (Sparse.rows Sparse.ex_A) [0; 1; 2] = true
  /\ (((l ← horzsplit Sparse.ex_A [0; 1; 3]; horzcat l) []
         = ([] ++ [M_horzsplit; M_horzcat], inr Sparse.ex_A)
       /\ (l ← vertsplit Sparse.ex_A [0; 1; 2]; vertcat l) []
          = ([] ++ [M_vertsplit; M_vertcat], inr Sparse.ex_A))
      /\ (Sparse.partitions (Sparse.cols Sparse.ex_A)
            [0; Sparse.cols Sparse.ex_A] = true
          /\ Sparse.partitions (Sparse.rows Sparse.ex_A)
               [0; Sparse.rows Sparse.ex_A] = true)
      /\ (Sparse.partitions (Sparse.cols Sparse.ex_A)
            (unit_offsets (Sparse.cols Sparse.ex_A))
          = (1 <=? Sparse.cols Sparse.ex_A)
          /\ Sparse.partitions (Sparse.rows Sparse.ex_A)
               (unit_offsets (Sparse.rows Sparse.ex_A))
             = (1 <=? Sparse.rows Sparse.ex_A))).
Proof.
  split; [exact wf_ex_A|].
  split; [reflexivity|].
  split; [reflexivity|].
  apply (split_cat_roundtrip Sparse.ex_A [0; 1; 3] [0; 1; 2] []);
    [exact wf_ex_A | reflexivity | reflexivity].
Defined.

(** Whatever the members compute: when the split member returns no
    group for the offsets [[0]], two different matrices without columns
    cannot both come back from [horzcat(horzsplit(.))], because both reach
    the concatenation member as the empty list. *)
Lemma roundtrip_needs_a_group {MatType : Type} `{SparsityInterface MatType}
    (x y : MatType) (t : trace) :
  x <> y -> size2 x = 0 -> size2 y = 0 ->
  zz_horzsplit x [0] = inr [] -> zz_horzsplit y [0] = inr [] ->
  ~ ((l ← horzsplit_default x; horzcat l) t
       = (t ++ [M_size2; M_horzsplit; M_horzcat], inr x)
     /\ (l ← horzsplit_default y; horzcat l) t
        = (t ++ [M_size2; M_horzsplit; M_horzcat], inr y)).
Proof.
  intros Hxy Hx Hy Hsx Hsy [Hrx Hry]. apply Hxy.
  assert (Hrun : forall v, size2 v = 0 -> zz_horzsplit v [0] = inr [] ->
            (l ← horzsplit_default v; horzcat l) t
            = (t ++ [M_size2; M_horzsplit; M_horzcat], zz_horzcat [])).
  { intros v Hv Hs. unfold horzsplit_default.
    unfold mbind, Op_bind, op_bind.
    rewrite horzsplit_incr_run by lia. rewrite Hv.
    unfold horzsplit, horzcat, call. cbn [range seq fmap list_fmap app].
    change (range 0 0 1 ++ [0]) with [0]. rewrite Hs, <- !app_assoc.
    reflexivity. }
  rewrite (Hrun x Hx Hsx) in Hrx. rewrite (Hrun y Hy Hsy) in Hry.
  congruence.
Qed.


Lemma mul3_masked_accumulate_witness :
  Sparse.cols Sparse.ex_X = Sparse.rows Sparse.ex_Y
  /\ Sparse.rows Sparse.ex_X = Sparse.rows Sparse.ex_Z
  /\ Sparse.cols Sparse.ex_Y = Sparse.cols Sparse.ex_Z
  /\ exists P R : Sparse.Matrix,
      mul Sparse.ex_X Sparse.ex_Y [] = ([] ++ [M_mtimes], inr P)
      /\ mul3 Sparse.ex_X Sparse.ex_Y Sparse.ex_Z [] = ([] ++ [M_mtimes3], inr R)
      /\ R = Sparse.add Sparse.ex_Z (Sparse.mask P (Sparse.sparsity Sparse.ex_Z))
      /\ Sparse.rows R = Sparse.rows Sparse.ex_Z
      /\ Sparse.cols R = Sparse.cols Sparse.ex_Z
      /\ Sparse.sparsity R = Sparse.sparsity Sparse.ex_Z
      /\ (forall i j, (i, j) ∈ Sparse.sparsity Sparse.ex_Z ->
            Sparse.nz R !! (i, j)
            = Some (Sparse.entry Sparse.ex_Z i j + Sparse.entry P i j))
      /\ (forall i j, (i, j) ∉ Sparse.sparsity Sparse.ex_Z ->
            Sparse.nz R !! (i, j) = None)
    /\ (forall i j, 0 <= i < Sparse.rows Sparse.ex_X ->
            0 <= j < Sparse.cols Sparse.ex_Y ->
            Sparse.entry P i j = Sparse.inner Sparse.ex_X Sparse.ex_Y i j).
Proof.
  split; [reflexivity|]. split; [reflexivity|]. split; [reflexivity|].
  apply (mul3_masked_accumulate Sparse.ex_X Sparse.ex_Y Sparse.ex_Z []);
    reflexivity.
Defined.


Lemma split_default_unit_increment_witness :
  0 <= size1 Sparse.ex_A
  /\ 0 <= size2 Sparse.ex_A
  /\ (horzsplit_default Sparse.ex_A [] = horzsplit_incr Sparse.ex_A 1 []
      /\ horzsplit_incr Sparse.ex_A 1 []
         = horzsplit Sparse.ex_A (unit_offsets (size2 Sparse.ex_A))
             ([] ++ [M_size2])
      /\ Sparse.bounds (size2 Sparse.ex_A) (unit_offsets (size2 Sparse.ex_A))
         = (fun k : nat => (Z.of_nat k, Z.of_nat k + 1))
             <$> seq 0 (Z.to_nat (size2 Sparse.ex_A)))
  /\ (vertsplit_default Sparse.ex_A [] = vertsplit_incr Sparse.ex_A 1 []
      /\ vertsplit_incr Sparse.ex_A 1 []
         = vertsplit Sparse.ex_A (unit_offsets (size1 Sparse.ex_A))
             ([] ++ [M_size1])
      /\ Sparse.bounds (size1 Sparse.ex_A) (unit_offsets (size1 Sparse.ex_A))
         = (fun k : nat => (Z.of_nat k, Z.of_nat k + 1))
             <$> seq 0 (Z.to_nat (size1 Sparse.ex_A))).
Proof.
  assert (H1 : 0 <= size1 Sparse.ex_A) by (simpl; lia).
  assert (H2 : 0 <= size2 Sparse.ex_A) by (simpl; lia).
  split; [exact H1|]. split; [exact H2|].
  exact (split_default_unit_increment Sparse.ex_A [] H1 H2).
Defined.

(** * Further properties of the algebra layer *)

(** ** The n-ary product, for any implementation of the members *)

Section MulListLaws.
Context {MatType : Type} `{SparsityInterface MatType}.

Lemma bind_ret_r_run {A} (m : Op A) (t : trace) :
  (m ≫= fun a => mret a) t = m t.
Proof.
  unfold mbind, Op_bind, op_bind, mret, Op_ret, op_ret.
  destruct (m t) as [t' [e|a]]; reflexivity.
Qed.

(** The fold, one element at a time from the left. *)
Lemma mul_fold_cons (a e : MatType) (rest : list MatType) (t : trace) :
  mul_fold_spec a (e :: rest) t = (r ← mul a e; mul_fold_spec r rest) t.
Proof.
  unfold mul_fold_spec at 1. cbn [foldl]. rewrite mul_fold_bind.
  rewrite bind_assoc_run. apply (bind_ret_run a).
Qed.

Lemma mul_fold_app (a : MatType) (l1 l2 : list MatType) (t : trace) :
  mul_fold_spec a (l1 ++ l2) t
  = (r ← mul_fold_spec a l1; mul_fold_spec r l2) t.
Proof.
  unfold mul_fold_spec at 1. rewrite foldl_app, mul_fold_bind. reflexivity.
Qed.

Lemma mul_list_app_run (a : MatType) (l1 l2 : list MatType) (t : trace) :
  mul_list (a :: l1 ++ l2) t = (r ← mul_list (a :: l1); mul_list (r :: l2)) t.
Proof.
  rewrite mul_list_cons, mul_fold_app.
  apply bind_ext; intros; symmetry; apply mul_list_cons.
Qed.

(** The trace of the fold: only product calls, one per element reached. *)
Lemma mul_fold_trace (rest : list MatType) (a : MatType) (t : trace) :
  exists k : nat,
    (mul_fold_spec a rest t).1 = t ++ replicate k M_mtimes
    /\ (k <= length rest)%nat
    /\ (forall R, (mul_fold_spec a rest t).2 = inr R -> k = length rest).
Proof.
  revert a t. induction rest as [|e rest IH]; intros a t.
  - exists 0%nat. cbn. rewrite app_nil_r. auto.
  - rewrite mul_fold_cons. unfold mul, call, mbind, Op_bind, op_bind.
    destruct (zz_mtimes a e) as [err|r].
    + exists 1%nat. cbn. split; [reflexivity|]. split; [lia|].
      intros R HR. discriminate.
    + destruct (IH r (t ++ [M_mtimes])) as (k & Htr & Hle & Hok).
      exists (S k). rewrite Htr, <- app_assoc. cbn [length].
      split; [reflexivity|]. split; [lia|].
      intros R HR. rewrite (Hok R HR). reflexivity.
Qed.

(** X1: the n-ary product of a list cut in two (first part non-empty) is
    the product of the first part, followed by the n-ary product of that
    result and the second part; in particular one more element at the end
    is one more binary product. *)
Theorem mul_list_app (a : MatType) (l1 l2 : list MatType) (e : MatType) (t : trace) :
  mul_list ((a :: l1) ++ l2) t
  = (r ← mul_list (a :: l1); mul_list (r :: l2)) t
  /\ mul_list ((a :: l1) ++ [e]) t = (r ← mul_list (a :: l1); mul r e) t.
Proof.
  split; [apply mul_list_app_run|].
  cbn [app]. rewrite mul_list_app_run.
  apply bind_ext; [reflexivity|]. intros r t'.
  rewrite mul_list_cons, mul_fold_cons.
  apply (bind_ret_r_run (mul r e)).
Qed.

(** X2: whatever the list, the n-ary product calls no member other than
    the binary product, at most once per element after the first, and
    exactly that often when it returns a matrix. *)
Theorem mul_list_trace (args : list MatType) (t : trace) :
  exists k : nat,
    (mul_list args t).1 = t ++ replicate k M_mtimes
    /\ (k <= length args - 1)%nat
    /\ (forall R, (mul_list args t).2 = inr R -> k = (length args - 1)%nat).
Proof.
  destruct args as [|a rest].
  - exists 0%nat. cbn. rewrite app_nil_r.
    split; [reflexivity|]. split; [lia|]. intros R HR. discriminate.
  - rewrite mul_list_cons. cbn [length].
    replace (S (length rest) - 1)%nat with (length rest) by lia.
    apply mul_fold_trace.
Qed.

(** X3: the first binary product that throws ends the n-ary product
    with that error, right after that call; the elements behind it are
    never multiplied. *)
Theorem mul_list_first_failure
    (a : MatType) (pre post : list MatType) (e r : MatType)
    (err : error) (t t' : trace) :
  mul_list (a :: pre) t = (t', inr r) ->
  zz_mtimes r e = inl err ->
  mul_list (a :: pre ++ e :: post) t = (t' ++ [M_mtimes], inl err).
Proof.
  intros Hpre Herr. rewrite mul_list_app_run.
  unfold mbind, Op_bind, op_bind. rewrite Hpre.
  rewrite mul_list_cons, mul_fold_cons.
  unfold mul, call, mbind, Op_bind, op_bind. rewrite Herr. reflexivity.
Qed.

End MulListLaws.

Lemma mul_list_first_failure_witness :
  mul_list [Sparse.ex_X; Sparse.ex_Y] []
  = ([M_mtimes],
     inr (Sparse.mkMatrix 2 2 (Sparse.mtimes_nz Sparse.ex_X Sparse.ex_Y)))
  /\ zz_mtimes (Sparse.mkMatrix 2 2 (Sparse.mtimes_nz Sparse.ex_X Sparse.ex_Y))
       Sparse.ex_B = inl ShapeMismatch
  /\ mul_list (Sparse.ex_X :: [Sparse.ex_Y] ++ Sparse.ex_B :: [Sparse.ex_X]) []
     = ([M_mtimes] ++ [M_mtimes], inl ShapeMismatch).
Proof.
  assert (H1 : mul_list [Sparse.ex_X; Sparse.ex_Y] []
               = ([M_mtimes],
                  inr (Sparse.mkMatrix 2 2
                         (Sparse.mtimes_nz Sparse.ex_X Sparse.ex_Y))))
    by reflexivity.
  assert (H2 : zz_mtimes
                 (Sparse.mkMatrix 2 2 (Sparse.mtimes_nz Sparse.ex_X Sparse.ex_Y))
                 Sparse.ex_B = inl ShapeMismatch)
    by reflexivity.
  split; [exact H1|]. split; [exact H2|].
  exact (mul_list_first_failure Sparse.ex_X [Sparse.ex_Y] [Sparse.ex_X]
           Sparse.ex_B _ ShapeMismatch [] [M_mtimes] H1 H2).
Defined.

(** ** Splitting by an increment *)

Lemma ngroups_bounds (n incr : Z) :
  1 <= incr -> 0 <= n ->
  (Z.of_nat (ngroups n incr) - 1) * incr < n <= Z.of_nat (ngroups n incr) * incr.
Proof.
  intros Hincr Hn. unfold ngroups.
  rewrite Z2Nat.id by (apply Z.div_pos; lia).
  pose proof (Z.div_mod (n + incr - 1) incr ltac:(lia)) as Hdm.
  pose proof (Z.mod_pos_bound (n + incr - 1) incr ltac:(lia)) as Hmod.
  nia.
Qed.

Lemma range_ngroups (n incr : Z) :
  range 0 n incr = (fun k : nat => Z.of_nat k * incr) <$> seq 0 (ngroups n incr).
Proof.
  unfold range, ngroups. replace (n - 0 + incr - 1) with (n + incr - 1) by lia.
  apply list_fmap_ext. intros _ k _. lia.
Qed.

Section IncrementSplit.
Import Sparse.

Lemma bounds_cons_more (N o o' : Z) (rest : list Z) :
  rest <> [] -> bounds N (o :: o' :: rest) = (o, o') :: bounds N (o' :: rest).
Proof. destruct rest; [done | reflexivity]. Qed.

Lemma length_bounds (N : Z) (offset : list Z) :
  length (bounds N offset) = (length offset - 1)%nat.
Proof.
  induction offset as [|o [|o' rest] IH]; [reflexivity..|].
  rewrite bounds_cons. cbn [length] in *. rewrite IH. lia.
Qed.

(** The [i]-th group starts at the [i]-th boundary and ends at the next
    one, except that the last group ends at [N]. *)
Lemma bounds_lookup (N : Z) (offset : list Z) (i : nat) (b : Z * Z) :
  bounds N offset !! i = Some b ->
  offset !! i = Some b.1
  /\ (if decide (S (S i) = length offset) then b.2 = N
      else offset !! S i = Some b.2).
Proof.
  revert i. induction offset as [|o [|o' rest] IH]; intros i Hb;
    [discriminate..|].
  rewrite bounds_cons in Hb. destruct i as [|i].
  - injection Hb as <-. cbn [length]. split; [reflexivity|].
    destruct rest; cbn [length fst snd].
    + rewrite decide_True by reflexivity. reflexivity.
    + rewrite decide_False by lia. reflexivity.
  - cbn [lookup list_lookup] in Hb. apply IH in Hb as [H1 H2].
    split; [exact H1|]. cbn [length] in *.
    destruct (decide (S (S i) = S (length rest))) as [Heq|Hne].
    + rewrite decide_True by lia. exact H2.
    + rewrite decide_False by lia. exact H2.
Qed.

(** The boundaries [a*incr, (a+1)*incr, ...] followed by [N] are
    non-decreasing and stay below [N]. *)
Lemma monotone_steps (N incr : Z) (n a : nat) :
  0 <= incr -> Z.of_nat (a + n) * incr <= N ->
  monotone (Z.of_nat a * incr) N
    (((fun k : nat => Z.of_nat k * incr) <$> seq (S a) n) ++ [N]) = true.
Proof.
  intros Hincr. revert a. induction n as [|n IH]; intros a Hle.
  - cbn. replace (Z.of_nat a * incr <=? N) with true
      by (symmetry; apply Z.leb_le; nia).
    rewrite Z.leb_refl. reflexivity.
  - cbn [seq fmap list_fmap app monotone].
    rewrite IH by (replace (S a + n)%nat with (a + S n)%nat by lia; exact Hle).
    replace (Z.of_nat a * incr <=? Z.of_nat (S a) * incr) with true
      by (symmetry; apply Z.leb_le; nia).
    replace (Z.of_nat (S a) * incr <=? N) with true
      by (symmetry; apply Z.leb_le; nia).
    reflexivity.
Qed.

Lemma incr_offsets_valid (N incr : Z) :
  1 <= incr -> 0 <= N -> valid_offsets N (range 0 N incr ++ [N]) = true.
Proof.
  intros Hincr HN. rewrite range_ngroups.
  pose proof (ngroups_bounds N incr Hincr HN) as Hm.
  destruct (ngroups N incr) as [|m].
  - cbn. replace N with 0 by lia. reflexivity.
  - cbn [seq fmap list_fmap app valid_offsets].
    change (Z.of_nat 0 * incr) with 0. rewrite Z.eqb_refl.
    replace (0 <=? N) with true by (symmetry; apply Z.leb_le; lia).
    pose proof (monotone_steps N incr m 0 ltac:(lia) ltac:(nia)) as Hmono.
    change (Z.of_nat 0 * incr) with 0 in Hmono. rewrite Hmono. reflexivity.
Qed.

Lemma incr_offsets_length (N incr : Z) :
  length (range 0 N incr ++ [N]) = S (ngroups N incr).
Proof.
  rewrite range_ngroups, length_app, length_fmap, length_seq. cbn. lia.
Qed.

(** The groups of the derived offsets: group [k] runs from [k*incr] to
    [(k+1)*incr], cut at [N]. *)
Lemma bounds_steps (N incr : Z) (n a : nat) :
  0 <= incr ->
  (n = 0%nat
   \/ (Z.of_nat (a + n) - 1) * incr <= N <= Z.of_nat (a + n) * incr) ->
  bounds N (((fun k : nat => Z.of_nat k * incr) <$> seq a n) ++ [N])
  = (fun k : nat => (Z.of_nat k * incr, Z.min ((Z.of_nat k + 1) * incr) N))
      <$> seq a n.
Proof.
  intros Hincr. revert a. induction n as [|n IH]; intros a Hn; [reflexivity|].
  destruct Hn as [Hn|Hn]; [discriminate|].
  destruct n as [|n].
  - cbn. rewrite Z.min_r by nia. reflexivity.
  - cbn [seq fmap list_fmap app].
    rewrite bounds_cons_more by (intros Hnil; apply app_eq_nil in Hnil as [_ ?]; discriminate).
    rewrite Z.min_l by nia.
    f_equal; [f_equal; lia|].
    apply (IH (S a)). right.
    replace (S a + S n)%nat with (a + S (S n))%nat by lia. exact Hn.
Qed.

Lemma incr_bounds (N incr : Z) :
  1 <= incr -> 0 <= N ->
  bounds N (range 0 N incr ++ [N])
  = (fun k : nat => (Z.of_nat k * incr, Z.min ((Z.of_nat k + 1) * incr) N))
      <$> seq 0 (ngroups N incr).
Proof.
  intros Hincr HN. rewrite range_ngroups.
  apply bounds_steps; [lia|].
  pose proof (ngroups_bounds N incr Hincr HN). right. cbn [Nat.add]. lia.
Qed.

Lemma along_shift (ax : axis) (d : Z) (k : Z * Z) :
  along ax (shift ax d k) = along ax k + d.
Proof. destruct ax, k; reflexivity. Qed.

Lemma across_shift (ax : axis) (d : Z) (k : Z * Z) :
  across ax (shift ax d k) = across ax k.
Proof. destruct ax, k; reflexivity. Qed.

(** What a group stores, read in the matrix it was cut from. *)
Lemma slice_lookup (ax : axis) (v : Matrix) (lo hi : Z) (k : Z * Z) :
  nz (slice ax v lo hi) !! k
  = if decide (0 <= along ax k < hi - lo) then nz v !! shift ax lo k else None.
Proof.
  unfold slice. rewrite nz_mk.
  rewrite <- (shift_0 ax k) at 1.
  replace 0 with (lo + - lo) at 1 by lia.
  rewrite <- shift_shift, lookup_kmap by apply _.
  rewrite map_lookup_filter.
  destruct (nz v !! shift ax lo k) as [z|] eqn:Hv; cbn.
  - cbn [fst]. rewrite along_shift.
    destruct (decide (0 <= along ax k < hi - lo)) as [Hin|Hout].
    + rewrite option_guard_True by lia. reflexivity.
    + rewrite option_guard_False by lia. reflexivity.
  - destruct (decide (0 <= along ax k < hi - lo)); reflexivity.
Qed.

Lemma slice_is_group (ax : axis) (v : Matrix) (lo hi : Z) :
  is_group ax v (slice ax v lo hi) lo (hi - lo).
Proof.
  unfold is_group. split; [|split].
  - unfold slice. apply dim_across_mk.
  - unfold slice. apply dim_along_mk.
  - apply slice_lookup.
Qed.

Lemma wf_axis (ax : axis) (v : Matrix) :
  wf v <->
  0 <= dim_across ax v /\ 0 <= dim_along ax v
  /\ forall k z, nz v !! k = Some z ->
       (0 <= across ax k < dim_across ax v)
       /\ (0 <= along ax k < dim_along ax v).
Proof.
  unfold wf, map_Forall.
  destruct ax; cbn [dim_across dim_along across along];
    (split; intros (Hr & Hc & Hin); (split; [lia|]); (split; [lia|]);
     intros k z Hk; specialize (Hin k z Hk); cbn beta in Hin; tauto).
Qed.

(** A group cut from a well-formed matrix is well-formed. *)
Lemma slice_wf (ax : axis) (v : Matrix) (lo hi : Z) :
  wf v -> lo <= hi -> wf (slice ax v lo hi).
Proof.
  intros Hwf Hle. apply (wf_axis ax) in Hwf as (Ha & Hl & Hin).
  apply (wf_axis ax). unfold slice at 1 2.
  rewrite dim_across_mk, dim_along_mk.
  split; [exact Ha|]. split; [lia|].
  intros k z Hk. rewrite slice_lookup in Hk.
  destruct (decide (0 <= along ax k < hi - lo)) as [Hr|]; [|discriminate].
  unfold slice. rewrite dim_across_mk, dim_along_mk.
  apply Hin in Hk as [Hk _]. rewrite across_shift in Hk. auto.
Qed.

(** Every group lies between 0 and [N] and does not end before it
    starts. *)
Lemma bounds_ordered (N : Z) (offset : list Z) (lo : Z) (b : Z * Z) :
  monotone lo N offset = true -> b ∈ bounds N offset ->
  lo <= b.1 /\ b.1 <= b.2 /\ b.2 <= N.
Proof.
  revert lo. induction offset as [|o [|o' rest] IH]; intros lo Hmono Hb;
    [inversion Hb..|].
  cbn [monotone] in Hmono.
  apply andb_prop in Hmono as [Ho Hmono].
  apply andb_prop in Ho as [Hlo HoN].
  apply Z.leb_le in Hlo, HoN.
  rewrite bounds_cons in Hb. apply elem_of_cons in Hb as [->|Hb].
  - cbn [monotone] in Hmono.
    apply andb_prop in Hmono as [Ho' _].
    apply andb_prop in Ho' as [Hoo' Ho'N].
    apply Z.leb_le in Hoo', Ho'N.
    cbn [fst snd]. destruct rest; lia.
  - specialize (IH o Hmono Hb). lia.
Qed.

Lemma valid_offsets_monotone (N : Z) (offset : list Z) :
  valid_offsets N offset = true -> monotone 0 N offset = true.
Proof.
  destruct offset as [|o0 rest]; [discriminate|]. cbn.
  intros Hv. apply andb_prop in Hv as [Hv Hmono].
  apply andb_prop in Hv as [Ho0 HN].
  apply Z.eqb_eq in Ho0. subst o0. rewrite HN, Hmono. reflexivity.
Qed.

(** The groups of an explicit split, along either axis. *)
Lemma split_groups_axis (ax : axis) (v : Matrix) (offset : list Z) :
  valid_offsets (dim_along ax v) offset = true ->
  exists gs : list Matrix,
    split ax v offset = inr gs
    /\ length gs = (length offset - 1)%nat
    /\ forall (i : nat) (g : Matrix), gs !! i = Some g ->
         exists lo hi : Z,
           offset !! i = Some lo
           /\ (if decide (S (S i) = length offset) then hi = dim_along ax v
               else offset !! S i = Some hi)
           /\ lo <= hi
           /\ is_group ax v g lo (hi - lo)
           /\ (wf v -> wf g).
Proof.
  intros Hvalid. exists (slices ax v (dim_along ax v) offset).
  unfold split. rewrite Hvalid. split; [reflexivity|].
  unfold slices. rewrite length_fmap, length_bounds. split; [reflexivity|].
  intros i g Hg. rewrite list_lookup_fmap in Hg.
  destruct (bounds (dim_along ax v) offset !! i) as [[lo hi]|] eqn:Hb;
    [|discriminate].
  injection Hg as <-. cbn [fst snd].
  pose proof (bounds_lookup _ _ _ _ Hb) as [Hlo Hhi].
  pose proof (bounds_ordered _ _ 0 (lo, hi)
                (valid_offsets_monotone _ _ Hvalid)
                (proj2 (list_elem_of_lookup _ _) (ex_intro _ i Hb)))
    as (_ & Hle & _).
  cbn [fst snd] in *.
  exists lo, hi. split; [exact Hlo|]. split; [exact Hhi|].
  split; [exact Hle|]. split; [apply slice_is_group|].
  intros Hwf. apply slice_wf; assumption.
Qed.

(** The groups of a split by an increment, along either axis. *)
Lemma incr_groups_axis (ax : axis) (v : Matrix) (incr : Z) :
  wf v -> 1 <= incr ->
  exists gs : list Matrix,
    split ax v (range 0 (dim_along ax v) incr ++ [dim_along ax v]) = inr gs
    /\ length gs = ngroups (dim_along ax v) incr
    /\ forall (k : nat) (g : Matrix), gs !! k = Some g ->
         wf g
         /\ is_group ax v g (Z.of_nat k * incr)
              (Z.min incr (dim_along ax v - Z.of_nat k * incr)).
Proof.
  intros Hwf Hincr.
  assert (HN : 0 <= dim_along ax v)
    by (apply (wf_axis ax) in Hwf; tauto).
  pose proof (ngroups_bounds _ incr Hincr HN) as Hm.
  eexists. unfold split. rewrite incr_offsets_valid by assumption.
  split; [reflexivity|].
  unfold slices. rewrite incr_bounds by assumption.
  rewrite !length_fmap, length_seq. split; [reflexivity|].
  intros k g Hg. rewrite !list_lookup_fmap in Hg.
  destruct (seq 0 (ngroups (dim_along ax v) incr) !! k) as [k'|] eqn:Hk;
    [|discriminate].
  apply lookup_seq in Hk as [-> Hlt]. cbn [Nat.add] in Hg.
  injection Hg as <-. cbn [fst snd].
  split.
  - apply slice_wf; [exact Hwf|]. nia.
  - replace (Z.min incr (dim_along ax v - Z.of_nat k * incr))
      with (Z.min ((Z.of_nat k + 1) * incr) (dim_along ax v) - Z.of_nat k * incr)
      by lia.
    apply slice_is_group.
Qed.

(** Cutting out the whole of a well-formed matrix gives the matrix. *)
Lemma slice_whole (ax : axis) (v : Matrix) :
  wf v -> slice ax v 0 (dim_along ax v) = v.
Proof.
  intros Hwf.
  assert (Hnz : nz (slice ax v 0 (dim_along ax v)) = nz v).
  { apply map_eq. intros k. rewrite slice_lookup, shift_0, Z.sub_0_r.
    destruct (decide (0 <= along ax k < dim_along ax v)) as [|Hout];
      [reflexivity|].
    destruct (nz v !! k) as [z|] eqn:Hk; [|reflexivity].
    apply (wf_axis ax) in Hwf as (_ & _ & Hin).
    apply Hin in Hk. tauto. }
  unfold slice in *. rewrite nz_mk in Hnz. rewrite Hnz, Z.sub_0_r.
  apply mk_dims.
Qed.

Lemma incr_offsets_partitions (N incr : Z) :
  1 <= incr -> 1 <= N -> partitions N (range 0 N incr ++ [N]) = true.
Proof.
  intros Hincr HN. unfold partitions.
  rewrite incr_offsets_valid, incr_offsets_length by lia.
  pose proof (ngroups_bounds N incr Hincr ltac:(lia)).
  apply Nat.leb_le. nia.
Qed.

Lemma run_split_incr_h (x : Matrix) (incr : Z) (t : trace) :
  1 <= incr ->
  horzsplit_incr x incr t
  = (t ++ [M_size2; M_horzsplit],
     split Horz x (range 0 (cols x) incr ++ [cols x])).
Proof.
  intros Hincr. rewrite horzsplit_incr_run by exact Hincr.
  unfold horzsplit, call. rewrite <- app_assoc. reflexivity.
Qed.

Lemma run_split_incr_v (x : Matrix) (incr : Z) (t : trace) :
  1 <= incr ->
  vertsplit_incr x incr t
  = (t ++ [M_size1; M_vertsplit],
     split Vert x (range 0 (rows x) incr ++ [rows x])).
Proof.
  intros Hincr. rewrite vertsplit_incr_run by exact Hincr.
  unfold vertsplit, call. rewrite <- app_assoc. reflexivity.
Qed.

(** X4: splitting a well-formed matrix by an increment [incr >= 1]
    succeeds and returns [cols / incr] (rounded up) groups; group [k] is
    well-formed, has the rows of [x], starts at column [k * incr] and is
    [incr] wide, the last one being cut at the last column.  The same holds
    for [vertsplit] and rows. *)
Theorem split_incr_groups (x : Matrix) (incr : Z) (t : trace) :
  wf x -> 1 <= incr ->
  (exists gs : list Matrix,
     horzsplit_incr x incr t = (t ++ [M_size2; M_horzsplit], inr gs)
     /\ length gs = ngroups (cols x) incr
     /\ forall (k : nat) (g : Matrix), gs !! k = Some g ->
          wf g
          /\ is_group Horz x g (Z.of_nat k * incr)
               (Z.min incr (cols x - Z.of_nat k * incr)))
  /\ (exists gs : list Matrix,
        vertsplit_incr x incr t = (t ++ [M_size1; M_vertsplit], inr gs)
        /\ length gs = ngroups (rows x) incr
        /\ forall (k : nat) (g : Matrix), gs !! k = Some g ->
             wf g
             /\ is_group Vert x g (Z.of_nat k * incr)
                  (Z.min incr (rows x - Z.of_nat k * incr))).
Proof.
  intros Hwf Hincr. split.
  - destruct (incr_groups_axis Horz x incr Hwf Hincr) as (gs & Hs & Hrest).
    exists gs. rewrite run_split_incr_h by exact Hincr.
    cbn [dim_along] in Hs. rewrite Hs. split; [reflexivity | exact Hrest].
  - destruct (incr_groups_axis Vert x incr Hwf Hincr) as (gs & Hs & Hrest).
    exists gs. rewrite run_split_incr_v by exact Hincr.
    cbn [dim_along] in Hs. rewrite Hs. split; [reflexivity | exact Hrest].
Qed.

(** X5: for a well-formed matrix with at least one column and an
    increment [incr >= 1], [horzcat(horzsplit(x, incr))] is [x]; for a
    well-formed matrix with at least one row, [vertcat(vertsplit(y, incr))]
    is [y]. *)
Theorem split_incr_cat_roundtrip (x y : Matrix) (incr : Z) (t : trace) :
  1 <= incr ->
  wf x -> 1 <= cols x ->
  wf y -> 1 <= rows y ->
  (l ← horzsplit_incr x incr; horzcat l) t
    = (t ++ [M_size2; M_horzsplit; M_horzcat], inr x)
  /\ (l ← vertsplit_incr y incr; vertcat l) t
     = (t ++ [M_size1; M_vertsplit; M_vertcat], inr y).
Proof.
  intros Hincr Hx Hcx Hy Hry.
  destruct (cat_split Horz x _ Hx
              (incr_offsets_partitions (cols x) incr Hincr Hcx))
    as (lh & Hsh & Hch).
  destruct (cat_split Vert y _ Hy
              (incr_offsets_partitions (rows y) incr Hincr Hry))
    as (lv & Hsv & Hcv).
  cbn [dim_along] in Hsh, Hsv.
  unfold mbind, Op_bind, op_bind.
  rewrite run_split_incr_h, run_split_incr_v by exact Hincr.
  rewrite Hsh, Hsv. unfold horzcat, vertcat, call.
  cbn [zz_horzcat zz_vertcat Matrix_interface].
  rewrite Hch, Hcv, <- !app_assoc. split; reflexivity.
Qed.

(** X6: an increment at least as large as the (positive) number of
    columns gives a single group, the matrix itself; likewise for rows. *)
Theorem split_incr_large (x y : Matrix) (incr : Z) (t : trace) :
  wf x -> 1 <= cols x <= incr ->
  wf y -> 1 <= rows y <= incr ->
  horzsplit_incr x incr t = (t ++ [M_size2; M_horzsplit], inr [x])
  /\ vertsplit_incr y incr t = (t ++ [M_size1; M_vertsplit], inr [y]).
Proof.
  intros Hx Hcx Hy Hry.
  assert (Hone : forall N, 1 <= N <= incr -> ngroups N incr = 1%nat).
  { intros N HN. pose proof (ngroups_bounds N incr ltac:(lia) ltac:(lia)).
    nia. }
  assert (Hgen : forall ax v, wf v -> 1 <= dim_along ax v <= incr ->
            split ax v (range 0 (dim_along ax v) incr ++ [dim_along ax v])
            = inr [v]).
  { intros ax v Hv HN. unfold split, slices.
    rewrite incr_offsets_valid, incr_bounds, (Hone _ HN) by lia.
    cbn [seq fmap list_fmap fst snd].
    change (Z.of_nat 0 * incr) with 0.
    replace (Z.min ((Z.of_nat 0 + 1) * incr) (dim_along ax v))
      with (dim_along ax v) by lia.
    rewrite slice_whole by exact Hv. reflexivity. }
  rewrite run_split_incr_h, run_split_incr_v by lia.
  pose proof (Hgen Horz x Hx Hcx) as Hh.
  pose proof (Hgen Vert y Hy Hry) as Hv.
  cbn [dim_along] in Hh, Hv. rewrite Hh, Hv. split; reflexivity.
Qed.

(** X7: a matrix without columns splits by any increment [incr >= 1]
    into the empty list of groups, whatever its row count; likewise a matrix
    without rows under [vertsplit]. *)
Theorem split_incr_empty_dimension (x y : Matrix) (incr : Z) (t : trace) :
  1 <= incr -> cols x = 0 -> rows y = 0 ->
  horzsplit_incr x incr t = (t ++ [M_size2; M_horzsplit], inr [])
  /\ vertsplit_incr y incr t = (t ++ [M_size1; M_vertsplit], inr []).
Proof.
  intros Hincr Hx Hy.
  rewrite run_split_incr_h, run_split_incr_v by exact Hincr.
  rewrite Hx, Hy.
  assert (Hz : range 0 0 incr = []).
  { unfold range. replace ((0 - 0 + incr - 1) / incr) with 0; [reflexivity|].
    symmetry. apply Z.div_small. lia. }
  rewrite Hz. unfold split. cbn [dim_along]. rewrite Hx, Hy.
  split; reflexivity.
Qed.

(** X8: for a valid offset vector, [horzsplit(x, offset)] returns one
    group per pair of neighbouring boundaries; group [i] has the rows of
    [x] and holds the columns from boundary [i] up to boundary [i+1],
    renumbered from 0, except that the last group runs to the last column
    whatever the final boundary is.  Groups of a well-formed matrix are
    well-formed.  The same holds for [vertsplit] and rows. *)
Theorem split_groups (x : Matrix) (Oc Or : list Z) (t : trace) :
  valid_offsets (cols x) Oc = true ->
  valid_offsets (rows x) Or = true ->
  (exists gs : list Matrix,
     horzsplit x Oc t = (t ++ [M_horzsplit], inr gs)
     /\ length gs = (length Oc - 1)%nat
     /\ forall (i : nat) (g : Matrix), gs !! i = Some g ->
          exists lo hi : Z,
            Oc !! i = Some lo
            /\ (if decide (S (S i) = length Oc) then hi = cols x
                else Oc !! S i = Some hi)
            /\ lo <= hi
            /\ is_group Horz x g lo (hi - lo)
            /\ (wf x -> wf g))
  /\ (exists gs : list Matrix,
        vertsplit x Or t = (t ++ [M_vertsplit], inr gs)
        /\ length gs = (length Or - 1)%nat
        /\ forall (i : nat) (g : Matrix), gs !! i = Some g ->
             exists lo hi : Z,
               Or !! i = Some lo
               /\ (if decide (S (S i) = length Or) then hi = rows x
                   else Or !! S i = Some hi)
               /\ lo <= hi
               /\ is_group Vert x g lo (hi - lo)
               /\ (wf x -> wf g)).
Proof.
  intros Hc Hr. split.
  - destruct (split_groups_axis Horz x Oc Hc) as (gs & Hs & Hrest).
    exists gs. unfold horzsplit, call.
    cbn [zz_horzsplit Matrix_interface]. rewrite Hs.
    split; [reflexivity | exact Hrest].
  - destruct (split_groups_axis Vert x Or Hr) as (gs & Hs & Hrest).
    exists gs. unfold vertsplit, call.
    cbn [zz_vertsplit Matrix_interface]. rewrite Hs.
    split; [reflexivity | exact Hrest].
Qed.

End IncrementSplit.

(** ** Concatenation: where each input ends up *)

Section CatLaws.
Import Sparse.

Lemma sum_along_cons (ax : axis) (x : Matrix) (l : list Matrix) :
  sum_along ax (x :: l) = dim_along ax x + sum_along ax l.
Proof. reflexivity. Qed.

Lemma sum_along_nonneg (ax : axis) (l : list Matrix) :
  Forall wf l -> 0 <= sum_along ax l.
Proof.
  induction 1 as [|x l Hx _ IH]; [reflexivity|].
  rewrite sum_along_cons. apply (wf_axis ax) in Hx. lia.
Qed.

(** Reading a map whose keys were moved by [d]. *)
Lemma kmap_shift_lookup (ax : axis) (d : Z) (m : gmap (Z * Z) Z) (k : Z * Z) :
  (kmap (shift ax d) m : gmap (Z * Z) Z) !! k = m !! shift ax (- d) k.
Proof.
  rewrite <- (shift_0 ax k) at 1.
  replace 0 with (- d + d) by lia.
  rewrite <- shift_shift. apply lookup_kmap, _.
Qed.

(** The concatenation stores nothing outside the blocks of its inputs. *)
Lemma cat_nz_range (ax : axis) (l : list Matrix) (off : Z) (k : Z * Z) (z : Z) :
  Forall wf l -> cat_nz ax off l !! k = Some z ->
  off <= along ax k < off + sum_along ax l.
Proof.
  intros Hwf. revert off. induction Hwf as [|x l Hx Hl IH]; intros off Hk.
  - cbn in Hk. rewrite lookup_empty in Hk. discriminate.
  - cbn [cat_nz] in Hk. rewrite sum_along_cons.
    pose proof (sum_along_nonneg ax l Hl) as Hs.
    apply (wf_axis ax) in Hx as (_ & Hd & Hin).
    apply lookup_union_Some_raw in Hk as [Hk|[_ Hk]].
    + rewrite kmap_shift_lookup in Hk. apply Hin in Hk as [_ Hk].
      rewrite along_shift in Hk. lia.
    + apply IH in Hk. lia.
Qed.

Lemma cat_nz_across (ax : axis) (l : list Matrix) (a off : Z) (k : Z * Z) (z : Z) :
  Forall wf l -> Forall (fun y => dim_across ax y = a) l ->
  cat_nz ax off l !! k = Some z -> 0 <= across ax k < a.
Proof.
  intros Hwf. revert off. induction Hwf as [|x l Hx Hl IH]; intros off Ha Hk.
  - cbn in Hk. rewrite lookup_empty in Hk. discriminate.
  - cbn [cat_nz] in Hk. apply Forall_cons in Ha as [Hxa Ha].
    apply (wf_axis ax) in Hx as (_ & _ & Hin).
    apply lookup_union_Some_raw in Hk as [Hk|[_ Hk]].
    + rewrite kmap_shift_lookup in Hk. apply Hin in Hk as [Hk _].
      rewrite across_shift in Hk. lia.
    + apply (IH _ Ha Hk).
Qed.

(** The [n]-th input is found unchanged at the offset given by the sizes
    of the inputs before it. *)
Lemma cat_nz_block (ax : axis) (l : list Matrix) (off : Z) (n : nat)
    (x : Matrix) (k : Z * Z) :
  Forall wf l -> l !! n = Some x -> 0 <= along ax k < dim_along ax x ->
  cat_nz ax off l !! shift ax (off + sum_along ax (take n l)) k = nz x !! k.
Proof.
  intros Hwf. revert off n. induction Hwf as [|y l Hy Hl IH];
    intros off n Hn Hk; [discriminate|].
  cbn [cat_nz]. rewrite lookup_union, kmap_shift_lookup, shift_shift.
  destruct n as [|n].
  - injection Hn as ->. cbn [take]. change (sum_along ax []) with 0.
    replace (off + 0 + - off) with 0 by lia. rewrite shift_0.
    destruct (cat_nz ax (off + dim_along ax x) l !! shift ax (off + 0) k)
      as [z|] eqn:Hrest.
    + apply cat_nz_range in Hrest; [|exact Hl].
      rewrite along_shift in Hrest. lia.
    + destruct (nz x !! k); reflexivity.
  - cbn [take lookup list_lookup] in *. rewrite sum_along_cons.
    pose proof (sum_along_nonneg ax (take n l) (Forall_take _ n _ Hl)) as Hs.
    destruct (nz y !! shift ax (off + (dim_along ax y + sum_along ax (take n l))
                                + - off) k) as [z|] eqn:Hleft.
    + apply (wf_axis ax) in Hy as (_ & _ & Hin).
      apply Hin in Hleft as [_ Hleft]. rewrite along_shift in Hleft. lia.
    + rewrite (left_id_L None _).
      replace (off + (dim_along ax y + sum_along ax (take n l)))
        with (off + dim_along ax y + sum_along ax (take n l)) by lia.
      apply IH; assumption.
Qed.

(** Concatenating a non-empty list that agrees across the axis. *)
Lemma cat_ok (ax : axis) (l : list Matrix) (a : Z) :
  l <> [] -> Forall (fun y => dim_across ax y = a) l ->
  cat ax l = inr (mk ax a (sum_along ax l) (cat_nz ax 0 l)).
Proof.
  intros Hne Ha. destruct l as [|x l]; [done|]. unfold cat.
  pose proof Ha as Ha'. apply Forall_cons in Ha' as [Hx _].
  replace (forallb _ (x :: l)) with true; [rewrite Hx; reflexivity|].
  symmetry. apply forallb_forall. intros y Hy.
  apply list_elem_of_In in Hy.
  rewrite Forall_forall in Ha. rewrite (Ha y Hy), Hx. apply Z.eqb_refl.
Qed.

Lemma cat_mk_wf (ax : axis) (l : list Matrix) (a : Z) :
  0 <= a -> Forall wf l -> Forall (fun y => dim_across ax y = a) l ->
  wf (mk ax a (sum_along ax l) (cat_nz ax 0 l)).
Proof.
  intros Hnn Hwf Ha. apply (wf_axis ax).
  rewrite dim_across_mk, dim_along_mk, nz_mk.
  split; [exact Hnn|]. split; [apply sum_along_nonneg, Hwf|].
  intros k z Hk. split.
  - apply (cat_nz_across ax l a 0 k z Hwf Ha Hk).
  - apply (cat_nz_range ax l 0 k z Hwf Hk).
Qed.

(** What concatenation along an axis returns. *)
Lemma cat_blocks_axis (ax : axis) (l : list Matrix) (a : Z) :
  l <> [] -> Forall wf l -> Forall (fun y => dim_across ax y = a) l ->
  exists R : Matrix,
    cat ax l = inr R /\ wf R
    /\ dim_across ax R = a /\ dim_along ax R = sum_along ax l
    /\ forall (n : nat) (x : Matrix) (k : Z * Z),
         l !! n = Some x -> 0 <= along ax k < dim_along ax x ->
         nz R !! shift ax (sum_along ax (take n l)) k = nz x !! k.
Proof.
  intros Hne Hwf Ha. eexists. split; [apply cat_ok; eassumption|].
  assert (Hnn : 0 <= a).
  { destruct l as [|x l]; [done|].
    apply Forall_cons in Hwf as [Hx _]. apply Forall_cons in Ha as [Hxa _].
    apply (wf_axis ax) in Hx. lia. }
  split; [apply cat_mk_wf; assumption|].
  rewrite dim_across_mk, dim_along_mk, nz_mk.
  split; [reflexivity|]. split; [reflexivity|].
  intros n x k Hn Hk.
  rewrite <- (Z.add_0_l (sum_along ax (take n l))).
  apply cat_nz_block; assumption.
Qed.

(** X9: [horzcat] of a non-empty list of well-formed matrices with [r]
    rows each returns a well-formed matrix with [r] rows and the sum of the
    column counts; the [n]-th input is found unchanged, its column [j] at
    column [j] plus the widths of the inputs before it.  [vertcat] does the
    same along the rows for inputs with [c] columns each. *)
Theorem cat_blocks (lh lv : list Matrix) (r c : Z) (t : trace) :
  lh <> [] -> Forall wf lh -> Forall (fun y => rows y = r) lh ->
  lv <> [] -> Forall wf lv -> Forall (fun y => cols y = c) lv ->
  (exists R : Matrix,
     horzcat lh t = (t ++ [M_horzcat], inr R) /\ wf R
     /\ rows R = r /\ cols R = sum_along Horz lh
     /\ forall (n : nat) (x : Matrix) (i j : Z),
          lh !! n = Some x -> 0 <= j < cols x ->
          nz R !! (i, j + sum_along Horz (take n lh)) = nz x !! (i, j))
  /\ (exists R : Matrix,
        vertcat lv t = (t ++ [M_vertcat], inr R) /\ wf R
        /\ cols R = c /\ rows R = sum_along Vert lv
        /\ forall (n : nat) (x : Matrix) (i j : Z),
             lv !! n = Some x -> 0 <= i < rows x ->
             nz R !! (i + sum_along Vert (take n lv), j) = nz x !! (i, j)).
Proof.
  intros Hh1 Hh2 Hh3 Hv1 Hv2 Hv3. split.
  - destruct (cat_blocks_axis Horz lh r Hh1 Hh2 Hh3)
      as (R & Hc & Hwf & Ha & Hl & Hblk).
    exists R. unfold horzcat, call. cbn [zz_horzcat Matrix_interface].
    rewrite Hc. repeat (split; [assumption || reflexivity|]).
    intros n x i j Hn Hj. apply (Hblk n x (i, j) Hn Hj).
  - destruct (cat_blocks_axis Vert lv c Hv1 Hv2 Hv3)
      as (R & Hc & Hwf & Ha & Hl & Hblk).
    exists R. unfold vertcat, call. cbn [zz_vertcat Matrix_interface].
    rewrite Hc. repeat (split; [assumption || reflexivity|]).
    intros n x i j Hn Hi. apply (Hblk n x (i, j) Hn Hi).
Qed.

End CatLaws.

(** ** Concatenating and splitting back *)

Section CatSplit.
Import Sparse.

(** A group that reads like [x] and has its shape is [x]. *)
Lemma slice_eq_block (ax : axis) (R x : Matrix) (lo hi : Z) :
  wf x -> dim_across ax R = dim_across ax x -> hi = lo + dim_along ax x ->
  (forall k, 0 <= along ax k < dim_along ax x ->
             nz R !! shift ax lo k = nz x !! k) ->
  slice ax R lo hi = x.
Proof.
  intros Hwf Ha -> Hblk.
  assert (Hnz : nz (slice ax R lo (lo + dim_along ax x)) = nz x).
  { apply map_eq. intros k. rewrite slice_lookup.
    replace (lo + dim_along ax x - lo) with (dim_along ax x) by lia.
    destruct (decide (0 <= along ax k < dim_along ax x)) as [Hin|Hout];
      [apply Hblk, Hin|].
    destruct (nz x !! k) as [z|] eqn:Hk; [|reflexivity].
    apply (wf_axis ax) in Hwf as (_ & _ & Hx). apply Hx in Hk. tauto. }
  unfold slice in *. rewrite nz_mk in Hnz. rewrite Hnz, Ha.
  replace (lo + dim_along ax x - lo) with (dim_along ax x) by lia.
  apply mk_dims.
Qed.

Lemma offsets_of_head (ax : axis) (o : Z) (l : list Matrix) :
  exists tl, offsets_of ax o l = o :: tl.
Proof. destruct l; eexists; reflexivity. Qed.

(** Cutting a matrix that holds the inputs side by side from [o] on, at
    the boundaries of the inputs, gives the inputs. *)
Lemma slices_cat (ax : axis) (R : Matrix) (l : list Matrix) (o : Z) :
  l <> [] -> Forall wf l ->
  Forall (fun y => dim_across ax y = dim_across ax R) l ->
  (forall (n : nat) (x : Matrix) (k : Z * Z),
     l !! n = Some x -> 0 <= along ax k < dim_along ax x ->
     nz R !! shift ax (o + sum_along ax (take n l)) k = nz x !! k) ->
  slices ax R (o + sum_along ax l) (offsets_of ax o l) = l.
Proof.
  intros Hne Hwf. revert o Hne.
  induction Hwf as [|x l Hx Hl IH]; intros o Hne Ha Hblk; [done|].
  apply Forall_cons in Ha as [Hxa Ha].
  assert (Hfirst : forall hi, hi = o + dim_along ax x ->
                              slice ax R o hi = x).
  { intros hi Hhi. apply slice_eq_block; [exact Hx | congruence | exact Hhi |].
    intros k Hk. specialize (Hblk 0%nat x k eq_refl Hk).
    cbn [take] in Hblk. change (sum_along ax []) with 0 in Hblk.
    rewrite Z.add_0_r in Hblk. exact Hblk. }
  rewrite sum_along_cons. cbn [offsets_of].
  destruct l as [|y l].
  - cbn [offsets_of]. rewrite slices_cons, slices_single.
    change (sum_along ax []) with 0.
    rewrite Hfirst by lia. reflexivity.
  - destruct (offsets_of_head ax (o + dim_along ax x + dim_along ax y) l)
      as [tl Htl].
    assert (Hoff : offsets_of ax (o + dim_along ax x) (y :: l)
                   = (o + dim_along ax x)
                       :: (o + dim_along ax x + dim_along ax y) :: tl).
    { cbn [offsets_of]. rewrite Htl. reflexivity. }
    rewrite Hoff, slices_cons, <- Hoff.
    rewrite Hfirst by reflexivity. f_equal.
    replace (o + (dim_along ax x + sum_along ax (y :: l)))
      with (o + dim_along ax x + sum_along ax (y :: l)) by lia.
    apply IH; [done | exact Ha |].
    intros n x' k Hn Hk. specialize (Hblk (S n) x' k Hn Hk).
    cbn [take] in Hblk. rewrite sum_along_cons in Hblk.
    replace (o + dim_along ax x + sum_along ax (take n (y :: l)))
      with (o + (dim_along ax x + sum_along ax (take n (y :: l)))) by lia.
    exact Hblk.
Qed.

Lemma monotone_offsets_of (ax : axis) (l : list Matrix) (lo o N : Z) :
  Forall wf l -> lo <= o -> o + sum_along ax l <= N ->
  monotone lo N (offsets_of ax o l) = true.
Proof.
  intros Hwf. revert lo o. induction Hwf as [|x l Hx Hl IH]; intros lo o Hlo HN.
  - change (sum_along ax []) with 0 in HN. cbn.
    replace (lo <=? o) with true by (symmetry; apply Z.leb_le; lia).
    replace (o <=? N) with true by (symmetry; apply Z.leb_le; lia).
    reflexivity.
  - rewrite sum_along_cons in HN.
    pose proof (sum_along_nonneg ax l Hl) as Hs.
    apply (wf_axis ax) in Hx as (_ & Hd & _).
    cbn [offsets_of monotone]. rewrite IH by lia.
    replace (lo <=? o) with true by (symmetry; apply Z.leb_le; lia).
    replace (o <=? N) with true by (symmetry; apply Z.leb_le; lia).
    reflexivity.
Qed.

Lemma valid_offsets_of (ax : axis) (l : list Matrix) :
  Forall wf l -> valid_offsets (sum_along ax l) (offsets_of ax 0 l) = true.
Proof.
  intros Hwf.
  pose proof (monotone_offsets_of ax l 0 0 (sum_along ax l) Hwf
                ltac:(lia) ltac:(lia)) as Hmono.
  destruct (offsets_of_head ax 0 l) as [tl Htl]. rewrite Htl in *.
  cbn [monotone valid_offsets] in *.
  apply andb_prop in Hmono as [Hb Hmono].
  apply andb_prop in Hb as [_ HN].
  rewrite Hmono, HN. reflexivity.
Qed.

Lemma split_cat_axis (ax : axis) (l : list Matrix) (a : Z) :
  l <> [] -> Forall wf l -> Forall (fun y => dim_across ax y = a) l ->
  exists R : Matrix,
    cat ax l = inr R /\ split ax R (offsets_of ax 0 l) = inr l.
Proof.
  intros Hne Hwf Ha.
  destruct (cat_blocks_axis ax l a Hne Hwf Ha)
    as (R & Hc & _ & HRa & HRl & Hblk).
  exists R. split; [exact Hc|].
  unfold split. rewrite HRl, valid_offsets_of by exact Hwf.
  f_equal. rewrite <- (Z.add_0_l (sum_along ax l)).
  apply slices_cat; [exact Hne | exact Hwf | |].
  - rewrite HRa. exact Ha.
  - intros n x k Hn Hk. rewrite Z.add_0_l. apply Hblk; assumption.
Qed.

(** X10: concatenating a non-empty list of well-formed matrices with
    equal row counts and splitting the result at the boundaries of the
    inputs (0, the first width, the first two widths, ...) gives back the
    list; likewise for [vertcat] followed by [vertsplit]. *)
Theorem cat_split_roundtrip (lh lv : list Matrix) (r c : Z) (t : trace) :
  lh <> [] -> Forall wf lh -> Forall (fun y => rows y = r) lh ->
  lv <> [] -> Forall wf lv -> Forall (fun y => cols y = c) lv ->
  (M ← horzcat lh; horzsplit M (offsets_of Horz 0 lh)) t
    = (t ++ [M_horzcat; M_horzsplit], inr lh)
  /\ (M ← vertcat lv; vertsplit M (offsets_of Vert 0 lv)) t
     = (t ++ [M_vertcat; M_vertsplit], inr lv).
Proof.
  intros Hh1 Hh2 Hh3 Hv1 Hv2 Hv3.
  destruct (split_cat_axis Horz lh r Hh1 Hh2 Hh3) as (Rh & Hch & Hsh).
  destruct (split_cat_axis Vert lv c Hv1 Hv2 Hv3) as (Rv & Hcv & Hsv).
  unfold horzcat, vertcat, horzsplit, vertsplit.
  cbn [zz_horzcat zz_vertcat zz_horzsplit zz_vertsplit Matrix_interface].
  rewrite Hch, Hcv, !bind_call_ok. unfold call.
  rewrite Hsh, Hsv, <- !app_assoc. split; reflexivity.
Qed.

End CatSplit.

(** ** Block-diagonal construction, products and the invariant *)

Section BlockProductLaws.
Import Sparse.

Lemma blk_nz_range (l : list Matrix) (r c : Z) (k : Z * Z) (z : Z) :
  Forall wf l -> blk_nz r c l !! k = Some z ->
  (r <= k.1 < r + sum_along Vert l) /\ (c <= k.2 < c + sum_along Horz l).
Proof.
  intros Hwf. revert r c. induction Hwf as [|x l Hx Hl IH]; intros r c Hk.
  - cbn in Hk. rewrite lookup_empty in Hk. discriminate.
  - cbn [blk_nz] in Hk. rewrite !sum_along_cons. cbn [dim_along].
    pose proof (sum_along_nonneg Vert l Hl).
    pose proof (sum_along_nonneg Horz l Hl).
    destruct Hx as (Hr & Hc & Hin).
    apply lookup_union_Some_raw in Hk as [Hk|[_ Hk]].
    + rewrite !kmap_shift_lookup in Hk. apply Hin in Hk.
      destruct k as [i j]. cbn in Hk. cbn [fst snd]. lia.
    + apply IH in Hk. lia.
Qed.

Lemma blkdiag_raw_wf (l : list Matrix) (R : Matrix) :
  Forall wf l -> blkdiag_raw l = inr R -> wf R.
Proof.
  intros Hwf [= <-]. unfold wf. cbn [rows cols nz].
  split; [apply (sum_along_nonneg Vert), Hwf|].
  split; [apply (sum_along_nonneg Horz), Hwf|].
  intros k z Hk. apply blk_nz_range in Hk; [|exact Hwf]. cbn beta. lia.
Qed.

Lemma cat_wf (ax : axis) (l : list Matrix) (R : Matrix) :
  Forall wf l -> cat ax l = inr R -> wf R.
Proof.
  intros Hwf Hc. destruct l as [|x l].
  - injection Hc as <-. unfold wf. cbn [rows cols nz].
    split; [lia|]. split; [lia|]. apply map_Forall_empty.
  - unfold cat in Hc.
    destruct (forallb _ (x :: l)) eqn:Hall; [|discriminate].
    injection Hc as <-.
    apply (cat_mk_wf ax (x :: l) (dim_across ax x)); [|exact Hwf|].
    + apply Forall_cons in Hwf as [Hx _]. apply (wf_axis ax) in Hx. tauto.
    + apply Forall_forall. intros y Hy.
      rewrite forallb_forall in Hall.
      apply Z.eqb_eq, Hall, list_elem_of_In, Hy.
Qed.

Lemma mtimes_wf (X Y P : Matrix) :
  wf X -> wf Y -> mtimes X Y = inr P -> wf P.
Proof.
  intros (HrX & _ & _) (_ & HcY & _) HP. unfold mtimes in HP.
  destruct (cols X =? rows Y); [|discriminate]. injection HP as <-.
  unfold wf. cbn [rows cols nz]. split; [exact HrX|]. split; [exact HcY|].
  intros [i j] z Hk. rewrite mtimes_nz_lookup in Hk.
  destruct (decide ((0 <= i < rows X) /\ (0 <= j < cols Y))) as [Hin|];
    [exact Hin | discriminate].
Qed.

Lemma mtimes3_wf (X Y Z0 R : Matrix) :
  wf Z0 -> mtimes3 X Y Z0 = inr R -> wf R.
Proof.
  intros (Hr & Hc & Hin) HR. unfold mtimes3 in HR.
  destruct (mtimes X Y) as [e|P]; [discriminate|].
  destruct ((rows P =? rows Z0) && (cols P =? cols Z0)); [|discriminate].
  injection HR as <-. unfold wf. cbn [rows cols add].
  split; [exact Hr|]. split; [exact Hc|].
  intros k z Hk. rewrite add_mask_lookup in Hk.
  destruct (nz Z0 !! k) as [z0|] eqn:HZ; [|discriminate].
  apply (Hin k z0 HZ).
Qed.

Lemma transpose_raw_wf (X : Matrix) : wf X -> wf (transpose_raw X).
Proof.
  intros (Hr & Hc & Hin). unfold wf, transpose_raw. cbn [rows cols nz].
  split; [exact Hc|]. split; [exact Hr|].
  intros [j i] z Hk.
  pose proof (transpose_raw_lookup X i j) as Hl.
  unfold transpose_raw in Hl. cbn [nz] in Hl. rewrite Hl in Hk.
  specialize (Hin (i, j) z Hk). cbn in *. tauto.
Qed.

Lemma mul_fold_wf (rest : list Matrix) (a R : Matrix) (t : trace) :
  wf a -> Forall wf rest -> (mul_fold_spec a rest t).2 = inr R -> wf R.
Proof.
  intros Ha Hrest. revert a t Ha.
  induction Hrest as [|e rest He Hrest IH]; intros a t Ha HR.
  - cbn in HR. injection HR as <-. exact Ha.
  - rewrite mul_fold_cons in HR.
    unfold mul, call, mbind, Op_bind, op_bind in HR.
    cbn [zz_mtimes Matrix_interface] in HR.
    destruct (mtimes a e) as [err|P] eqn:HP; [discriminate|].
    apply (IH P _ (mtimes_wf a e P Ha He HP) HR).
Qed.

(** X11: every operation of the algebra layer that returns a matrix
    returns a well-formed one when its arguments are well-formed: the
    concatenations, the block-diagonal construction, the three products and
    the transpose. *)
Theorem wf_preserved (l : list Matrix) (X Y Z0 : Matrix) (t : trace) :
  Forall wf l -> wf X -> wf Y -> wf Z0 ->
  (forall R, (horzcat l t).2 = inr R -> wf R)
  /\ (forall R, (vertcat l t).2 = inr R -> wf R)
  /\ (forall R, (blkdiag l t).2 = inr R -> wf R)
  /\ (forall R, (mul X Y t).2 = inr R -> wf R)
  /\ (forall R, (mul3 X Y Z0 t).2 = inr R -> wf R)
  /\ (forall R, (mul_list l t).2 = inr R -> wf R)
  /\ (forall R, (transpose X t).2 = inr R -> wf R).
Proof.
  intros Hl HX HY HZ.
  split; [intros R HR; apply (cat_wf Horz l R Hl HR)|].
  split; [intros R HR; apply (cat_wf Vert l R Hl HR)|].
  split; [intros R HR; apply (blkdiag_raw_wf l R Hl HR)|].
  split; [intros R HR; apply (mtimes_wf X Y R HX HY HR)|].
  split; [intros R HR; apply (mtimes3_wf X Y Z0 R HZ HR)|].
  split.
  - intros R HR. destruct l as [|a rest]; [discriminate|].
    rewrite mul_list_cons in HR. apply Forall_cons in Hl as [Ha Hrest].
    apply (mul_fold_wf rest a R t Ha Hrest HR).
  - intros R [= <-]. apply transpose_raw_wf, HX.
Qed.

(** X12: the block-diagonal matrix of two well-formed matrices has the
    sum of their row counts and of their column counts; it stores [x] in the
    upper left block, [y] in the lower right block, moved by the shape of
    [x], and nothing in the two other blocks. *)
Theorem blkdiag2_blocks (x y : Matrix) (t : trace) :
  wf x -> wf y ->
  exists R : Matrix,
    blkdiag2 x y t = (t ++ [M_blkdiag], inr R) /\ wf R
    /\ rows R = rows x + rows y /\ cols R = cols x + cols y
    /\ forall i j : Z,
         nz R !! (i, j)
         = if decide (i < rows x /\ j < cols x) then nz x !! (i, j)
           else if decide (rows x <= i /\ cols x <= j)
                then nz y !! (i - rows x, j - cols x)
                else None.
Proof.
  intros Hx Hy. eexists. split; [reflexivity|].
  split.
  { apply (blkdiag_raw_wf [x; y]); [|reflexivity].
    constructor; [exact Hx|]. constructor; [exact Hy|]. constructor. }
  rewrite vector2_eq.
  cbn [rows cols nz sum_along foldr dim_along].
  split; [lia|]. split; [lia|].
  intros i j. cbn [blk_nz].
  rewrite !lookup_union, !kmap_shift_lookup, lookup_empty.
  cbn [shift fst snd].
  rewrite (right_id_L None _).
  destruct Hx as (_ & _ & Hxin). destruct Hy as (_ & _ & Hyin).
  replace (i + - 0) with i by lia.
  replace (j + - 0) with j by lia.
  replace (i + - (0 + rows x)) with (i - rows x) by lia.
  replace (j + - (0 + cols x)) with (j - cols x) by lia.
  destruct (nz x !! (i, j)) as [zx|] eqn:Hzx.
  - specialize (Hxin _ _ Hzx). cbn in Hxin.
    rewrite decide_True by lia.
    destruct (nz y !! (i - rows x, j - cols x)); reflexivity.
  - rewrite (left_id_L None _).
    destruct (nz y !! (i - rows x, j - cols x)) as [zy|] eqn:Hzy.
    + specialize (Hyin _ _ Hzy). cbn in Hyin.
      rewrite decide_False by lia. rewrite decide_True by lia. reflexivity.
    + repeat case_decide; reflexivity.
Qed.

(** X13: the binary product throws [ShapeMismatch] when [X.cols] differs
    from [Y.rows]; otherwise it returns a matrix [P] of shape
    [X.rows] by [Y.cols] that stores position [(i, j)] exactly when it lies
    inside that shape and some [k] has both [X[i,k]] and [Y[k,j]] stored,
    and whose entries are the sums over [k] of [X[i,k] * Y[k,j]]. *)
Theorem mul_product (X Y : Matrix) (t : trace) :
  (cols X <> rows Y /\ mul X Y t = (t ++ [M_mtimes], inl ShapeMismatch))
  \/ (cols X = rows Y
      /\ exists P : Matrix,
           mul X Y t = (t ++ [M_mtimes], inr P)
           /\ rows P = rows X /\ cols P = cols Y
           /\ (forall i j : Z,
                 (i, j) ∈ sparsity P
                 <-> (0 <= i < rows X) /\ (0 <= j < cols Y)
                     /\ exists k : Z, (0 <= k < cols X)
                          /\ is_Some (nz X !! (i, k))
                          /\ is_Some (nz Y !! (k, j)))
           /\ (forall i j : Z,
                 entry P i j
                 = if decide ((0 <= i < rows X) /\ (0 <= j < cols Y))
                   then inner X Y i j else 0)).
Proof.
  unfold mul, call. cbn [zz_mtimes Matrix_interface]. unfold mtimes.
  destruct (Z.eqb_spec (cols X) (rows Y)) as [Heq|Hne]; [right|left; auto].
  split; [exact Heq|]. eexists. split; [reflexivity|].
  cbn [rows cols]. split; [reflexivity|]. split; [reflexivity|]. split.
  - intros i j. unfold sparsity. cbn [nz].
    rewrite elem_of_dom, mtimes_nz_lookup.
    destruct (decide ((0 <= i < rows X) /\ (0 <= j < cols Y))) as [Hin|Hout].
    + rewrite dot_is_Some. tauto.
    + split; [intros [? ?]; discriminate | tauto].
  - intros i j. unfold entry at 1. cbn [nz]. rewrite mtimes_nz_lookup.
    destruct (decide ((0 <= i < rows X) /\ (0 <= j < cols Y)));
      [apply dot_inner | reflexivity].
Qed.

Lemma chain_head (x x' : Matrix) (l : list Matrix) :
  cols x = cols x' -> chain (x :: l) = chain (x' :: l).
Proof. intros Hc. destruct l; cbn; [reflexivity | rewrite Hc; reflexivity]. Qed.

Lemma mul_fold_chain (rest : list Matrix) (a : Matrix) (t : trace) :
  (chain (a :: rest) = true
   /\ exists R z : Matrix,
        mul_fold_spec a rest t = (t ++ replicate (length rest) M_mtimes, inr R)
        /\ rows R = rows a /\ last (a :: rest) = Some z /\ cols R = cols z)
  \/ (chain (a :: rest) = false
      /\ exists k : nat, (1 <= k <= length rest)%nat
           /\ mul_fold_spec a rest t
              = (t ++ replicate k M_mtimes, inl ShapeMismatch)).
Proof.
  revert a t. induction rest as [|e rest IH]; intros a t.
  - left. split; [reflexivity|]. exists a, a. cbn.
    rewrite app_nil_r. auto.
  - rewrite mul_fold_cons. unfold mul, call, mbind, Op_bind, op_bind.
    cbn [zz_mtimes Matrix_interface]. unfold mtimes.
    change (chain (a :: e :: rest))
      with ((cols a =? rows e) && chain (e :: rest)).
    destruct (Z.eqb_spec (cols a) (rows e)) as [Heq|Hne].
    + set (P := mkMatrix (rows a) (cols e) (mtimes_nz a e)).
      rewrite (chain_head e P rest eq_refl). cbn [andb].
      destruct (IH P (t ++ [M_mtimes])) as [(Hch & R & z & Hrun & Hr & Hz & Hc)
                                           |(Hch & k & Hk & Hrun)].
      * left. split; [exact Hch|].
        exists R, (match rest with [] => e | _ => z end).
        rewrite Hrun, <- app_assoc. split; [reflexivity|].
        split; [exact Hr|].
        destruct rest as [|y rest].
        -- cbn in Hz. injection Hz as <-. split; [reflexivity | exact Hc].
        -- split; [exact Hz | exact Hc].
      * right. split; [exact Hch|]. exists (S k).
        rewrite Hrun, <- app_assoc. cbn [length]. split; [lia | reflexivity].
    + right. split; [reflexivity|]. exists 1%nat. cbn [length].
      split; [lia | reflexivity].
Qed.

(** X14: the n-ary product of a non-empty list returns a matrix exactly
    when each element has as many columns as the next one has rows; the
    result then has the rows of the first element and the columns of the
    last one, after one binary product per further element.  Otherwise it
    throws [ShapeMismatch] after at least one binary product. *)
Theorem mul_list_chain (a : Matrix) (rest : list Matrix) (t : trace) :
  (chain (a :: rest) = true
   /\ exists R z : Matrix,
        mul_list (a :: rest) t
        = (t ++ replicate (length rest) M_mtimes, inr R)
        /\ rows R = rows a /\ last (a :: rest) = Some z /\ cols R = cols z)
  \/ (chain (a :: rest) = false
      /\ exists k : nat, (1 <= k <= length rest)%nat
           /\ mul_list (a :: rest) t
              = (t ++ replicate k M_mtimes, inl ShapeMismatch)).
Proof. rewrite mul_list_cons. apply mul_fold_chain. Qed.

End BlockProductLaws.

(** ** The further properties at concrete matrices *)

Section FurtherWitnesses.
Import Sparse.

Ltac wf_by_computation :=
  unfold wf; split; [simpl; lia|]; split; [simpl; lia|];
  apply (bool_decide_unpack _); vm_compute; exact I.

Lemma wf_ex_B : wf ex_B.
Proof. wf_by_computation. Defined.

Lemma wf_ex_X : wf ex_X.
Proof. wf_by_computation. Defined.

Lemma wf_ex_Y : wf ex_Y.
Proof. wf_by_computation. Defined.

Lemma wf_ex_Z : wf ex_Z.
Proof. wf_by_computation. Defined.

Lemma split_incr_groups_witness :
  wf ex_A /\ 1 <= 2
  /\ ((exists gs : list Matrix,
         horzsplit_incr ex_A 2 [] = ([] ++ [M_size2; M_horzsplit], inr gs)
         /\ length gs = ngroups (cols ex_A) 2
         /\ forall (k : nat) (g : Matrix), gs !! k = Some g ->
              wf g
              /\ is_group Horz ex_A g (Z.of_nat k * 2)
                   (Z.min 2 (cols ex_A - Z.of_nat k * 2)))
      /\ (exists gs : list Matrix,
            vertsplit_incr ex_A 2 [] = ([] ++ [M_size1; M_vertsplit], inr gs)
            /\ length gs = ngroups (rows ex_A) 2
            /\ forall (k : nat) (g : Matrix), gs !! k = Some g ->
                 wf g
                 /\ is_group Vert ex_A g (Z.of_nat k * 2)
                      (Z.min 2 (rows ex_A - Z.of_nat k * 2)))).
Proof.
  split; [exact wf_ex_A|]. split; [lia|].
  apply (split_incr_groups ex_A 2 []); [exact wf_ex_A | lia].
Defined.

Lemma split_incr_cat_roundtrip_witness :
  1 <= 2 /\ wf ex_A /\ 1 <= cols ex_A /\ wf ex_A /\ 1 <= rows ex_A
  /\ ((l ← horzsplit_incr ex_A 2; horzcat l) []
        = ([] ++ [M_size2; M_horzsplit; M_horzcat], inr ex_A)
      /\ (l ← vertsplit_incr ex_A 2; vertcat l) []
         = ([] ++ [M_size1; M_vertsplit; M_vertcat], inr ex_A)).
Proof.
  assert (Hc : 1 <= cols ex_A) by (simpl; lia).
  assert (Hr : 1 <= rows ex_A) by (simpl; lia).
  split; [lia|]. split; [exact wf_ex_A|]. split; [exact Hc|].
  split; [exact wf_ex_A|]. split; [exact Hr|].
  apply (split_incr_cat_roundtrip ex_A ex_A 2 []
           ltac:(lia) wf_ex_A Hc wf_ex_A Hr).
Defined.

Lemma split_incr_large_witness :
  wf ex_A /\ 1 <= cols ex_A <= 5 /\ wf ex_A /\ 1 <= rows ex_A <= 5
  /\ (horzsplit_incr ex_A 5 [] = ([] ++ [M_size2; M_horzsplit], inr [ex_A])
      /\ vertsplit_incr ex_A 5 [] = ([] ++ [M_size1; M_vertsplit], inr [ex_A])).
Proof.
  assert (Hc : 1 <= cols ex_A <= 5) by (simpl; lia).
  assert (Hr : 1 <= rows ex_A <= 5) by (simpl; lia).
  split; [exact wf_ex_A|]. split; [exact Hc|].
  split; [exact wf_ex_A|]. split; [exact Hr|].
  apply (split_incr_large ex_A ex_A 5 [] wf_ex_A Hc wf_ex_A Hr).
Defined.

Lemma split_incr_empty_dimension_witness :
  1 <= 3 /\ cols ex_E = 0 /\ rows (mkMatrix 0 4 ∅) = 0
  /\ (horzsplit_incr ex_E 3 [] = ([] ++ [M_size2; M_horzsplit], inr [])
      /\ vertsplit_incr (mkMatrix 0 4 ∅) 3 []
         = ([] ++ [M_size1; M_vertsplit], inr [])).
Proof.
  split; [lia|]. split; [reflexivity|]. split; [reflexivity|].
  apply (split_incr_empty_dimension ex_E (mkMatrix 0 4 ∅) 3 []);
    [lia | reflexivity | reflexivity].
Defined.

Lemma split_groups_witness :
  valid_offsets (cols ex_A) [0; 1; 2] = true
  /\ valid_offsets (rows ex_A) [0; 1; 2] = true
  /\ ((exists gs : list Matrix,
         horzsplit ex_A [0; 1; 2] [] = ([] ++ [M_horzsplit], inr gs)
         /\ length gs = (length [0; 1; 2] - 1)%nat
         /\ forall (i : nat) (g : Matrix), gs !! i = Some g ->
              exists lo hi : Z,
                [0; 1; 2] !! i = Some lo
                /\ (if decide (S (S i) = length [0; 1; 2]) then hi = cols ex_A
                    else [0; 1; 2] !! S i = Some hi)
                /\ lo <= hi
                /\ is_group Horz ex_A g lo (hi - lo)
                /\ (wf ex_A -> wf g))
      /\ (exists gs : list Matrix,
            vertsplit ex_A [0; 1; 2] [] = ([] ++ [M_vertsplit], inr gs)
            /\ length gs = (length [0; 1; 2] - 1)%nat
            /\ forall (i : nat) (g : Matrix), gs !! i = Some g ->
                 exists lo hi : Z,
                   [0; 1; 2] !! i = Some lo
                   /\ (if decide (S (S i) = length [0; 1; 2])
                       then hi = rows ex_A
                       else [0; 1; 2] !! S i = Some hi)
                   /\ lo <= hi
                   /\ is_group Vert ex_A g lo (hi - lo)
                   /\ (wf ex_A -> wf g))).
Proof.
  split; [reflexivity|]. split; [reflexivity|].
  apply (split_groups ex_A [0; 1; 2] [0; 1; 2] []); reflexivity.
Defined.

Lemma Forall_wf_AX : Forall wf [ex_A; ex_X].
Proof.
  constructor; [exact wf_ex_A|]. constructor; [exact wf_ex_X|]. constructor.
Defined.

Lemma Forall_wf_AB : Forall wf [ex_A; ex_B].
Proof.
  constructor; [exact wf_ex_A|]. constructor; [exact wf_ex_B|]. constructor.
Defined.

Lemma Forall_rows_AX : Forall (fun y => rows y = 2) [ex_A; ex_X].
Proof. repeat (constructor; [reflexivity|]). constructor. Defined.

Lemma Forall_cols_AB : Forall (fun y => cols y = 3) [ex_A; ex_B].
Proof. repeat (constructor; [reflexivity|]). constructor. Defined.

Lemma cat_blocks_witness :
  [ex_A; ex_X] <> [] /\ Forall wf [ex_A; ex_X]
  /\ Forall (fun y => rows y = 2) [ex_A; ex_X]
  /\ [ex_A; ex_B] <> [] /\ Forall wf [ex_A; ex_B]
  /\ Forall (fun y => cols y = 3) [ex_A; ex_B]
  /\ ((exists R : Matrix,
         horzcat [ex_A; ex_X] [] = ([] ++ [M_horzcat], inr R) /\ wf R
         /\ rows R = 2 /\ cols R = sum_along Horz [ex_A; ex_X]
         /\ forall (n : nat) (x : Matrix) (i j : Z),
              [ex_A; ex_X] !! n = Some x -> 0 <= j < cols x ->
              nz R !! (i, j + sum_along Horz (take n [ex_A; ex_X]))
              = nz x !! (i, j))
      /\ (exists R : Matrix,
            vertcat [ex_A; ex_B] [] = ([] ++ [M_vertcat], inr R) /\ wf R
            /\ cols R = 3 /\ rows R = sum_along Vert [ex_A; ex_B]
            /\ forall (n : nat) (x : Matrix) (i j : Z),
                 [ex_A; ex_B] !! n = Some x -> 0 <= i < rows x ->
                 nz R !! (i + sum_along Vert (take n [ex_A; ex_B]), j)
                 = nz x !! (i, j))).
Proof.
  assert (H1 : [ex_A; ex_X] <> []) by discriminate.
  assert (H2 : [ex_A; ex_B] <> []) by discriminate.
  split; [exact H1|]. split; [exact Forall_wf_AX|].
  split; [exact Forall_rows_AX|]. split; [exact H2|].
  split; [exact Forall_wf_AB|]. split; [exact Forall_cols_AB|].
  apply (cat_blocks [ex_A; ex_X] [ex_A; ex_B] 2 3 []
           H1 Forall_wf_AX Forall_rows_AX H2 Forall_wf_AB Forall_cols_AB).
Defined.

Lemma cat_split_roundtrip_witness :
  [ex_A; ex_X] <> [] /\ Forall wf [ex_A; ex_X]
  /\ Forall (fun y => rows y = 2) [ex_A; ex_X]
  /\ [ex_A; ex_B] <> [] /\ Forall wf [ex_A; ex_B]
  /\ Forall (fun y => cols y = 3) [ex_A; ex_B]
  /\ ((M ← horzcat [ex_A; ex_X];
       horzsplit M (offsets_of Horz 0 [ex_A; ex_X])) []
        = ([] ++ [M_horzcat; M_horzsplit], inr [ex_A; ex_X])
      /\ (M ← vertcat [ex_A; ex_B];
          vertsplit M (offsets_of Vert 0 [ex_A; ex_B])) []
         = ([] ++ [M_vertcat; M_vertsplit], inr [ex_A; ex_B])).
Proof.
  assert (H1 : [ex_A; ex_X] <> []) by discriminate.
  assert (H2 : [ex_A; ex_B] <> []) by discriminate.
  split; [exact H1|]. split; [exact Forall_wf_AX|].
  split; [exact Forall_rows_AX|]. split; [exact H2|].
  split; [exact Forall_wf_AB|]. split; [exact Forall_cols_AB|].
  apply (cat_split_roundtrip [ex_A; ex_X] [ex_A; ex_B] 2 3 []
           H1 Forall_wf_AX Forall_rows_AX H2 Forall_wf_AB Forall_cols_AB).
Defined.

Lemma Forall_wf_XY : Forall wf [ex_X; ex_Y].
Proof.
  constructor; [exact wf_ex_X|]. constructor; [exact wf_ex_Y|]. constructor.
Defined.

Lemma wf_preserved_witness :
  Forall wf [ex_X; ex_Y] /\ wf ex_X /\ wf ex_Y /\ wf ex_Z
  /\ ((forall R, (horzcat [ex_X; ex_Y] []).2 = inr R -> wf R)
      /\ (forall R, (vertcat [ex_X; ex_Y] []).2 = inr R -> wf R)
      /\ (forall R, (blkdiag [ex_X; ex_Y] []).2 = inr R -> wf R)
      /\ (forall R, (mul ex_X ex_Y []).2 = inr R -> wf R)
      /\ (forall R, (mul3 ex_X ex_Y ex_Z []).2 = inr R -> wf R)
      /\ (forall R, (mul_list [ex_X; ex_Y] []).2 = inr R -> wf R)
      /\ (forall R, (transpose ex_X []).2 = inr R -> wf R)).
Proof.
  split; [exact Forall_wf_XY|]. split; [exact wf_ex_X|].
  split; [exact wf_ex_Y|]. split; [exact wf_ex_Z|].
  apply (wf_preserved [ex_X; ex_Y] ex_X ex_Y ex_Z []
           Forall_wf_XY wf_ex_X wf_ex_Y wf_ex_Z).
Defined.

Lemma blkdiag2_blocks_witness :
  wf ex_A /\ wf ex_B
  /\ exists R : Matrix,
       blkdiag2 ex_A ex_B [] = ([] ++ [M_blkdiag], inr R) /\ wf R
       /\ rows R = rows ex_A + rows ex_B /\ cols R = cols ex_A + cols ex_B
       /\ forall i j : Z,
            nz R !! (i, j)
            = if decide (i < rows ex_A /\ j < cols ex_A) then nz ex_A !! (i, j)
              else if decide (rows ex_A <= i /\ cols ex_A <= j)
                   then nz ex_B !! (i - rows ex_A, j - cols ex_A)
                   else None.
Proof.
  split; [exact wf_ex_A|]. split; [exact wf_ex_B|].
  apply (blkdiag2_blocks ex_A ex_B [] wf_ex_A wf_ex_B).
Defined.

End FurtherWitnesses.

(** ** Transposing concatenations and products *)

Section TransposeLaws.
Import Sparse.

Lemma kmap_swap_lookup (m : gmap (Z * Z) Z) (i j : Z) :
  (kmap prod_swap m : gmap (Z * Z) Z) !! (j, i) = m !! (i, j).
Proof. change (j, i) with (prod_swap (i, j)). apply lookup_kmap, _. Qed.

Lemma kmap_swap_shift (ax : axis) (d : Z) (m : gmap (Z * Z) Z) :
  (kmap prod_swap (kmap (shift ax d) m) : gmap (Z * Z) Z)
  = kmap (shift (flip ax) d) (kmap prod_swap m).
Proof.
  apply map_eq. intros [a b].
  rewrite kmap_swap_lookup, !kmap_shift_lookup.
  destruct ax; cbn [flip shift fst snd]; rewrite kmap_swap_lookup;
    reflexivity.
Qed.

Lemma cat_nz_transpose (ax : axis) (l : list Matrix) (off : Z) :
  (kmap prod_swap (cat_nz ax off l) : gmap (Z * Z) Z)
  = cat_nz (flip ax) off (transpose_raw <$> l).
Proof.
  revert off. induction l as [|x l IH]; intros off.
  - cbn. apply kmap_empty.
  - cbn [cat_nz fmap list_fmap].
    rewrite kmap_union, kmap_swap_shift, IH by apply _.
    destruct ax; reflexivity.
Qed.

Lemma sum_along_transpose (ax : axis) (l : list Matrix) :
  sum_along (flip ax) (transpose_raw <$> l) = sum_along ax l.
Proof.
  induction l as [|x l IH]; [reflexivity|].
  cbn [fmap list_fmap]. rewrite !sum_along_cons, IH.
  destruct ax; reflexivity.
Qed.

Lemma forallb_across_transpose (ax : axis) (x : Matrix) (l : list Matrix) :
  forallb (fun y => dim_across (flip ax) y
                    =? dim_across (flip ax) (transpose_raw x))
          (transpose_raw <$> l)
  = forallb (fun y => dim_across ax y =? dim_across ax x) l.
Proof.
  induction l as [|y l IH]; [reflexivity|].
  cbn [fmap list_fmap forallb]. rewrite IH.
  destruct ax; reflexivity.
Qed.

(** Transposing a concatenation concatenates the transposes along the
    other axis. *)
Lemma cat_transpose (ax : axis) (l : list Matrix) :
  cat (flip ax) (transpose_raw <$> l)
  = match cat ax l with
    | inl e => inl e
    | inr R => inr (transpose_raw R)
    end.
Proof.
  destruct l as [|x l].
  - cbn. unfold transpose_raw. cbn [rows cols nz].
    rewrite kmap_empty. reflexivity.
  - unfold cat. cbn [fmap list_fmap].
    change (transpose_raw x :: (transpose_raw <$> l))
      with (transpose_raw <$> (x :: l)).
    rewrite forallb_across_transpose.
    destruct (forallb _ (x :: l)); [|reflexivity].
    rewrite sum_along_transpose, <- cat_nz_transpose.
    destruct ax; reflexivity.
Qed.

(** X15: transposing the horizontal concatenation of a list gives the
    vertical concatenation of the transposed matrices, and the other way
    round; a [ShapeMismatch] on one side is a [ShapeMismatch] on the
    other. *)
Theorem transpose_cat (l : list Matrix) (t : trace) :
  (vertcat (T <$> l) t).2
    = ((M ← horzcat l; transpose M) t).2
  /\ (horzcat (T <$> l) t).2
     = ((M ← vertcat l; transpose M) t).2.
Proof.
  unfold horzcat, vertcat, transpose, call, mbind, Op_bind, op_bind.
  cbn [zz_horzcat zz_vertcat T Matrix_interface].
  pose proof (cat_transpose Horz l) as Hh.
  pose proof (cat_transpose Vert l) as Hv.
  cbn [flip] in Hh, Hv. rewrite Hh, Hv.
  destruct (cat Horz l), (cat Vert l); split; reflexivity.
Qed.

Lemma dot_transpose (X Y : Matrix) (i j : Z) :
  cols X = rows Y ->
  dot (transpose_raw Y) (transpose_raw X) j i = dot X Y i j.
Proof.
  intros Heq. unfold dot. cbn [cols transpose_raw]. rewrite <- Heq.
  induction (indices (cols X)) as [|k ks IH]; [reflexivity|].
  cbn [foldr]. rewrite IH.
  rewrite (transpose_raw_lookup Y k j), (transpose_raw_lookup X i k).
  destruct (nz X !! (i, k)) as [a|], (nz Y !! (k, j)) as [b|];
    try reflexivity.
  f_equal. lia.
Qed.

(** X16: the transpose of a product is the product of the transposes in
    the opposite order, with the same stored positions and values. *)
Theorem transpose_mul (X Y : Matrix) (t : trace) :
  cols X = rows Y ->
  exists P : Matrix,
    mul X Y t = (t ++ [M_mtimes], inr P)
    /\ mul (T Y) (T X) t = (t ++ [M_mtimes], inr (T P)).
Proof.
  intros Heq. exists (mkMatrix (rows X) (cols Y) (mtimes_nz X Y)).
  unfold mul, call. cbn [zz_mtimes T Matrix_interface]. unfold mtimes.
  cbn [rows cols transpose_raw].
  replace (rows Y =? cols X) with true by (symmetry; apply Z.eqb_eq; lia).
  replace (cols X =? rows Y) with true by (symmetry; apply Z.eqb_eq; lia).
  split; [reflexivity|].
  assert (Hnz : mtimes_nz (transpose_raw Y) (transpose_raw X)
                = kmap prod_swap (mtimes_nz X Y)).
  { apply map_eq. intros [j i].
    rewrite kmap_swap_lookup, !mtimes_nz_lookup.
    cbn [rows cols transpose_raw].
    rewrite (dot_transpose X Y i j Heq).
    apply decide_ext. tauto. }
  rewrite Hnz. reflexivity.
Qed.

End TransposeLaws.

Lemma transpose_mul_witness :
  Sparse.cols Sparse.ex_A = Sparse.rows Sparse.ex_B
  /\ exists P : Sparse.Matrix,
       mul Sparse.ex_A Sparse.ex_B [] = ([] ++ [M_mtimes], inr P)
       /\ mul (T Sparse.ex_B) (T Sparse.ex_A) []
          = ([] ++ [M_mtimes], inr (T P)).
Proof.
  split; [reflexivity|].
  apply (transpose_mul Sparse.ex_A Sparse.ex_B []). reflexivity.
Defined.
